(** * web-mapper: the crawl engine of [web_mapper.scrapers]

    A shallow embedding of [patterns.py], [mapper_errors.py] and [mapper.py],
    and the properties of the crawler stated over it.

    - Python [str] is [string]; the order on [str] is the order on code
      points, which on UTF-8 bytes is [String.leb];
    - Python [set] of [str] is [gset string];
    - a compiled [re] pattern is a term of [regex], run by a backtracking
      matcher that lists the ways to match in the order [re] tries them;
    - [urllib.parse] is the class [UrlLib]; the network with the HTML parser
      and the order in which a set is iterated are the class [World]: what is
      proved of [crawl] holds whatever they are. [Urllib] is a model of
      [urllib.parse], for the properties that depend on what a URL resolves
      to. *)

From Stdlib Require Import ZArith QArith Ascii.
From stdpp Require Import gmap strings list sorting.

Local Open Scope Z_scope.
#[local] Set Warnings "-clear-no-such-hyp".

(** ** Strings *)

Module Str.

Definition is_empty (s : string) : bool :=
  match s with EmptyString => true | String _ _ => false end.

(** [c in chars] *)
Fixpoint mem (c : ascii) (chars : string) : bool :=
  match chars with
  | EmptyString => false
  | String d chars' => Ascii.eqb c d || mem c chars'
  end.

(** [s[:n]] and [s[n:]] for [n >= 0] *)
Fixpoint take (n : nat) (s : string) : string :=
  match n, s with
  | S n', String c s' => String c (take n' s')
  | _, _ => EmptyString
  end.

Fixpoint drop (n : nat) (s : string) : string :=
  match n, s with
  | S n', String _ s' => drop n' s'
  | _, _ => s
  end.

(** [s.lstrip(chars)], [s.rstrip(chars)] and [s.strip(chars)] *)
Fixpoint lstrip (chars s : string) : string :=
  match s with
  | String c s' => if mem c chars then lstrip chars s' else s
  | EmptyString => EmptyString
  end.

Fixpoint rstrip (chars s : string) : string :=
  match s with
  | String c s' =>
      match rstrip chars s' with
      | EmptyString => if mem c chars then EmptyString else String c EmptyString
      | t => String c t
      end
  | EmptyString => EmptyString
  end.

Definition strip (chars s : string) : string := rstrip chars (lstrip chars s).

(** [s.startswith(p)] and [s.endswith(p)] *)
Fixpoint startswith (s p : string) {struct p} : bool :=
  match p, s with
  | EmptyString, _ => true
  | String c p', String d s' => Ascii.eqb c d && startswith s' p'
  | String _ _, EmptyString => false
  end.

Definition endswith (s p : string) : bool :=
  String.eqb (drop (String.length s - String.length p) s) p
  && (String.length p <=? String.length s)%nat.

(** [s.find(c)] and [s.find(c, start)]; [None] is Python's [-1] *)
Fixpoint find (c : ascii) (s : string) : option nat :=
  match s with
  | EmptyString => None
  | String d s' => if Ascii.eqb c d then Some O else S <$> find c s'
  end.

Definition find_from (c : ascii) (start : nat) (s : string) : option nat :=
  (λ i, start + i)%nat <$> find c (drop start s).

(** [s.rfind(c)] *)
Fixpoint rfind (c : ascii) (s : string) : option nat :=
  match s with
  | EmptyString => None
  | String d s' =>
      match rfind c s' with
      | Some i => Some (S i)
      | None => if Ascii.eqb c d then Some O else None
      end
  end.

(** [s.split(sep)] and [sep.join(parts)] for a one-character [sep] *)
Fixpoint split (sep : ascii) (s : string) : list string :=
  match s with
  | EmptyString => [EmptyString]
  | String c s' =>
      if Ascii.eqb c sep then EmptyString :: split sep s'
      else match split sep s' with
           | x :: xs => String c x :: xs
           | [] => [String c EmptyString]
           end
  end.

Fixpoint join (sep : ascii) (parts : list string) : string :=
  match parts with
  | [] => EmptyString
  | [x] => x
  | x :: xs => x +:+ String sep (join sep xs)
  end.

(** [s.replace(c, '')] *)
Fixpoint remove (c : ascii) (s : string) : string :=
  match s with
  | EmptyString => EmptyString
  | String d s' => if Ascii.eqb c d then remove c s' else String d (remove c s')
  end.

(** [s.lower()] on ASCII letters *)
Definition lower_char (c : ascii) : ascii :=
  let n := N_of_ascii c in
  if ((65 <=? n) && (n <=? 90))%N then ascii_of_N (n + 32) else c.

Fixpoint lower (s : string) : string :=
  match s with
  | EmptyString => EmptyString
  | String c s' => String (lower_char c) (lower s')
  end.

(** [all(p(c) for c in s)] *)
Fixpoint forallb (p : ascii → bool) (s : string) : bool :=
  match s with
  | EmptyString => true
  | String c s' => p c && forallb p s'
  end.

(** [all(c in chars for c in s)] *)
Fixpoint all_in (chars s : string) : bool :=
  match s with
  | EmptyString => true
  | String c s' => mem c chars && all_in chars s'
  end.

End Str.

(** ** Regular expressions: [re.compile], [match], [findall] *)

(** The fragment of [re] syntax that [patterns.py] uses. Groups are all
    non-capturing, so a match is its text only. *)
Inductive regex : Type :=
  | Eps                                            (* the empty pattern *)
  | Chr (c : ascii)                                (* a literal character *)
  | Cls (ranges : list (ascii * ascii))            (* [a-zA-Z...] *)
  | Cat (r1 r2 : regex)                            (* r1 r2 *)
  | Rep (lo : nat) (hi : option nat) (r : regex)   (* greedy r{lo,hi}; r{lo,} *)
  | Bol.                                           (* ^ *)

Declare Scope regex_scope.
Delimit Scope regex_scope with re.
Bind Scope regex_scope with regex.
Infix "⋅" := Cat (at level 40, left associativity) : regex_scope.

Fixpoint Lit (s : string) : regex :=
  match s with
  | EmptyString => Eps
  | String c s' => Cat (Chr c) (Lit s')
  end.

Definition Opt (r : regex) : regex := Rep 0 (Some 1%nat) r.     (* r? *)
Definition Plus (r : regex) : regex := Rep 1 None r.            (* r+ *)

Definition in_class (ranges : list (ascii * ascii)) (c : ascii) : bool :=
  existsb (λ '(lo, hi), (N_of_ascii lo <=? N_of_ascii c)%N
                        && (N_of_ascii c <=? N_of_ascii hi)%N) ranges.

(** A matcher configuration: are we at the very start of the subject, and
    what is left of it. *)
Definition cfg : Type := bool * string.

(** Greedy repetition between [lo] and [hi] times: one more iteration is tried
    before stopping. *)
Fixpoint rep (step : cfg → list cfg) (lo hi : nat) (x : cfg) : list cfg :=
  match hi with
  | O => match lo with O => [x] | S _ => [] end
  | S hi' =>
      (step x ≫= rep step (pred lo) hi')
      ++ match lo with O => [x] | S _ => [] end
  end.

(** All the ways [r] matches at [x], in the order a backtracking matcher
    finds them: the head of the list is the match that [re] reports. An
    unbounded repetition never needs more iterations than there are
    characters left, for a body that consumes at least one. *)
Fixpoint paths (r : regex) (x : cfg) : list cfg :=
  match r with
  | Eps => [x]
  | Chr c =>
      match x.2 with
      | String d s' => if Ascii.eqb c d then [(false, s')] else []
      | EmptyString => []
      end
  | Cls ranges =>
      match x.2 with
      | String d s' => if in_class ranges d then [(false, s')] else []
      | EmptyString => []
      end
  | Cat r1 r2 => paths r1 x ≫= paths r2
  | Rep lo hi r1 =>
      rep (paths r1) lo (from_option id (String.length x.2) hi) x
  | Bol => if x.1 then [x] else []
  end.

(** The first match of [r] at [x]: the matched text and the configuration
    after it. *)
Definition match_at (r : regex) (x : cfg) : option (string * cfg) :=
  match paths r x with
  | y :: _ => Some (Str.take (String.length x.2 - String.length y.2) x.2, y)
  | [] => None
  end.

(** [pattern.match(s)]: a match at the beginning of [s]. *)
Definition re_match (r : regex) (s : string) : option string :=
  fst <$> match_at r (true, s).

(** [pattern.fullmatch(s)]: some way of matching at the beginning of [s] uses
    all of it. *)
Definition re_fullmatch (r : regex) (s : string) : bool :=
  existsb (λ y, Str.is_empty y.2) (paths r (true, s)).

(** [pattern.findall(s)] for a pattern without groups: the matches found
    scanning left to right, each search resuming where the last match ended.
    [skip] counts the characters of the last match still to step over. After
    an empty match the scan moves on by one character; [DOMAIN_PATTERN] has
    no empty match. *)
Fixpoint findall_from (r : regex) (b : bool) (skip : nat) (s : string)
  : list string :=
  match skip with
  | S n =>
      match s with
      | String _ s' => findall_from r false n s'
      | EmptyString => []
      end
  | O =>
      match match_at r (b, s) with
      | Some (m, _) =>
          m :: match s with
               | String _ s' => findall_from r false (pred (String.length m)) s'
               | EmptyString => []
               end
      | None =>
          match s with
          | String _ s' => findall_from r false 0 s'
          | EmptyString => []
          end
      end
  end.

Definition findall (r : regex) (s : string) : list string :=
  findall_from r true 0 s.

(** *** patterns.py *)

Definition DOMAIN_PATTERN : regex :=
  (Lit "http" ⋅ Opt (Chr "s") ⋅ Lit "://"
   ⋅ Opt (Lit "www" ⋅ Chr ".")
   ⋅ Rep 1 (Some 63%nat) (Cls [("-", "-"); ("a", "z"); ("A", "Z"); ("0", "9")]%char)
   ⋅ Plus (Chr "." ⋅ Rep 2 (Some 6%nat) (Cls [("a", "z"); ("A", "Z")]%char))
   ⋅ Opt (Chr "/"))%re.

Definition LINK_PATTERN : regex := (Bol ⋅ Chr "/")%re.

(** *** What a pattern means

    [Match r b w]: the text [w] is matched by [r], where [b] tells whether
    [w] begins at the start of the subject. [Match r true w] is [w]
    matching [r] as a whole, anchored at both ends. *)
Fixpoint iter (P : bool → string → Prop) (n : nat) (b : bool) (w : string)
  : Prop :=
  match n with
  | O => w = EmptyString
  | S n' =>
      ∃ w1 w2, w = w1 +:+ w2 ∧ P b w1 ∧ iter P n' (b && Str.is_empty w1) w2
  end.

Fixpoint Match (r : regex) (b : bool) (w : string) : Prop :=
  match r with
  | Eps => w = EmptyString
  | Chr c => w = String c EmptyString
  | Cls ranges => ∃ c, in_class ranges c = true ∧ w = String c EmptyString
  | Cat r1 r2 =>
      ∃ w1 w2, w = w1 +:+ w2 ∧ Match r1 b w1
               ∧ Match r2 (b && Str.is_empty w1) w2
  | Rep lo hi r1 =>
      ∃ n, (lo ≤ n)%nat ∧ (∀ h, hi = Some h → (n ≤ h)%nat)
           ∧ iter (Match r1) n b w
  | Bol => b = true ∧ w = EmptyString
  end.

(** Every match of [r] has at least one character. *)
Fixpoint consumes (r : regex) : bool :=
  match r with
  | Eps | Bol => false
  | Chr _ | Cls _ => true
  | Cat r1 r2 => consumes r1 || consumes r2
  | Rep lo _ r1 => (0 <? lo)%nat && consumes r1
  end.

(** The patterns the matcher is exact on: the body of every unbounded
    repetition consumes a character. *)
Fixpoint well_formed (r : regex) : bool :=
  match r with
  | Eps | Bol | Chr _ | Cls _ => true
  | Cat r1 r2 => well_formed r1 && well_formed r2
  | Rep _ hi r1 =>
      well_formed r1 && match hi with Some _ => true | None => consumes r1 end
  end.

Fixpoint bol_free (r : regex) : bool :=
  match r with
  | Eps | Chr _ | Cls _ => true
  | Bol => false
  | Cat r1 r2 => bol_free r1 && bol_free r2
  | Rep _ _ r1 => bol_free r1
  end.

(** The characters that a match of [r] can have. *)
Fixpoint alphabet (r : regex) (c : ascii) : bool :=
  match r with
  | Eps | Bol => false
  | Chr d => Ascii.eqb c d
  | Cls ranges => in_class ranges c
  | Cat r1 r2 => alphabet r1 c || alphabet r2 c
  | Rep _ _ r1 => alphabet r1 c
  end.

(** [n]-fold composition of a matcher step. *)
Fixpoint iter_paths (step : cfg → list cfg) (n : nat) (x y : cfg) : Prop :=
  match n with
  | O => y = x
  | S n' => ∃ z, z ∈ step x ∧ iter_paths step n' z y
  end.

(** ** mapper_errors.py *)

(** [MapperURLInvalidError] derives from [MapperErros], which derives from
    [Exception]; an exception carries the message it was built with. *)
Inductive exception : Type :=
  | MapperErros (message : string)
  | MapperURLInvalidError_ (message : string).

Definition MapperURLInvalidError : exception :=
  MapperURLInvalidError_ "URL fornecida não é válida.".

(** [str(e)] *)
Definition str (e : exception) : string :=
  match e with MapperErros m | MapperURLInvalidError_ m => m end.

Inductive result (A : Type) : Type :=
  | Ok (a : A)
  | Raise (e : exception).
Arguments Ok {A} a.
Arguments Raise {A} e.

(** ** The world around the crawler *)

(** A parsed document, as far as [_find_links] looks at it: its tags in
    document order, each with its attributes. *)
Record tag : Type := Tag { tag_name : string; tag_attrs : gmap string string }.
Definition soup : Type := list tag.

(** [BeautifulSoup('', 'html.parser')]: a document without tags. *)
Definition empty_soup : soup := [].

(** The six fields of [urllib.parse.ParseResult]. *)
Record ParseResult : Type := mkParseResult {
  scheme : string; netloc : string; path : string;
  params : string; query : string; fragment : string }.

(** What the crawler calls and does not define.

    [urlparse] and [urljoin] of [urllib.parse], on the URLs where they
    return. *)
Class UrlLib : Type := {
  urlparse : string → ParseResult;
  urljoin : string → string → string }.

(** - [fetch url]: [requests.get(url)], [raise_for_status()] and the parse of
      [response.text]; [inl msg] when a [RequestException] with text [msg] is
      raised;
    - [set_order xs]: the set built by adding the elements of [xs] in turn,
      listed in the order in which Python iterates it. Python leaves that
      order open: it is some enumeration of the members, each once. *)
Class World : Type := {
  fetch : string → string + soup;
  set_order : list string → list string;
  set_order_perm (xs : list string) :
    set_order xs ≡ₚ elements (list_to_set xs : gset string) }.

(** What the crawler does to the outside, in order. *)
Inductive effect : Type :=
  | Request (url : string)      (* requests.get(url) *)
  | Print (line : string)       (* console.print(line) *)
  | Log (line : string)         (* console.log(line) *)
  | Sleep (seconds : Q).        (* sleep(seconds) *)

(** ** mapper.py *)

Record Mapper : Type := mkMapper {
  domain : string;
  max_depth : Z;
  rate_limit : Q;
  visited : gset string;
  all_links : gset string }.

(** The object and the effects so far. *)
Definition state : Type := Mapper * list effect.

(** [Mapper.__init__] *)
Definition Mapper_init (domain : string) (max_depth : Z) (rate_limit : Q)
  : result Mapper :=
  let match_ := findall DOMAIN_PATTERN domain in
  match match_ with
  | [] => Raise MapperURLInvalidError
  | m0 :: _ =>
      Ok {| domain := Str.strip "/" m0;
            max_depth := max_depth;
            rate_limit := rate_limit;
            visited := ∅;
            all_links := ∅ |}
  end.

(** [self.visited.add(url)] and [self.all_links.add(url)] *)
Definition visited_add (url : string) (self : Mapper) : Mapper :=
  {| domain := domain self; max_depth := max_depth self;
     rate_limit := rate_limit self;
     visited := {[url]} ∪ visited self; all_links := all_links self |}.

Definition all_links_add (url : string) (self : Mapper) : Mapper :=
  {| domain := domain self; max_depth := max_depth self;
     rate_limit := rate_limit self;
     visited := visited self; all_links := {[url]} ∪ all_links self |}.

Definition emit (e : effect) (st : state) : state := (st.1, st.2 ++ [e]).

(** The extensions that [_is_valid_url] turns away. *)
Definition non_content : list string :=
  [".pdf"; ".jpg"; ".jpeg"; ".png"; ".gif"; ".svg"].

Section Crawler.
Context {lib : UrlLib} {world : World}.

(** [Mapper._get_page] *)
Definition _get_page (url : string) (st : state) : soup * state :=
  let st := emit (Request url) st in
  match fetch url with
  | inl e =>
      (empty_soup,
       emit (Print ("[red]Erro ao acessar " +:+ url +:+ ":[/red] " +:+ e)) st)
  | inr page => (page, st)
  end.

(** [Mapper._find_links]: the [href] of every [a] tag that has one. *)
Definition _find_links (page : soup) : list string :=
  omap (λ t, if String.eqb (tag_name t) "a" then tag_attrs t !! "href"
             else None) page.

(** [Mapper._clean_links]. The set comprehension adds the links that pass
    the test, in the order of [links]; [list(cleaned)] lists the set. *)
Definition _clean_links (links : list string) : list string :=
  let cleaned :=
    filter (λ link, negb (Str.is_empty link)
                    && bool_decide (is_Some (re_match LINK_PATTERN link)))
           links in
  set_order cleaned.

(** [Mapper._is_valid_url] *)
Definition _is_valid_url (self : Mapper) (url : string) : bool :=
  let parsed_url := urlparse url in
  let domain_parsed := urlparse (domain self) in
  if negb (String.eqb (netloc parsed_url) (netloc domain_parsed)) then false
  else if existsb (λ ext, Str.endswith (path parsed_url) ext) non_content
  then false
  else true.

(** [Mapper._rate_limit_wait] *)
Definition _rate_limit_wait (st : state) : state :=
  emit (Sleep (rate_limit st.1)) st.

(** The body of the [for link in clean_links] loop of [crawl]; [crawl] is
    the recursive call. *)
Definition follow (crawl : string → Z → state → state) (depth : Z)
    (st : state) (link : string) : state :=
  let absolute_url := urljoin (domain st.1) link in
  if _is_valid_url st.1 absolute_url
     && bool_decide (absolute_url ∉ visited st.1)
  then
    let st := (all_links_add absolute_url st.1, st.2) in
    let st := crawl absolute_url (depth + 1) st in
    _rate_limit_wait st
  else st.

(** [Mapper.crawl]. The recursion is on the distance of [depth] to
    [max_depth + 1]: [crawl_at n] is [crawl] with [n] nested calls left,
    and [crawl] starts it with as many as the depth test lets through
    ([crawl_eq] below is the source's recursion equation). *)
Fixpoint crawl_at (n : nat) (url : string) (depth : Z) (st : state) : state :=
  match n with
  | O => st
  | S n' =>
      if depth >? max_depth st.1 then st
      else if bool_decide (url ∈ visited st.1) then st
      else
        let st := (visited_add url st.1, st.2) in
        let st := emit (Log ("Visitando: [blue]" +:+ url +:+ "[/blue]")) st in
        let '(html, st) := _get_page url st in
        let links := _find_links html in
        let clean_links := _clean_links links in
        foldl (follow (crawl_at n') depth) st clean_links
  end.

Definition crawl (url : string) (depth : Z) (st : state) : state :=
  crawl_at (Z.to_nat (max_depth st.1 + 1 - depth)) url depth st.

(** [sorted(xs)] on strings *)
Definition sorted (xs : list string) : list string :=
  merge_sort String.le xs.

(** [Mapper.map_web_site]. [sorted] gives the same list for every order in
    which the set is iterated ([sorted_any_order] below). *)
Definition map_web_site (st : state) : list string * state :=
  let st := crawl (domain st.1) 0 st in
  (sorted (elements (all_links st.1)), st).

End Crawler.

(** ** A model of [urllib.parse]

    [urlsplit], [urlparse], [urlunsplit], [urlunparse] and [urljoin] of CPython
    3.12 on [str] arguments, function by function. Left out: the
    [ValueError] that [urlsplit] raises for a netloc with unbalanced or
    ill-formed brackets, and its check of a non-ASCII netloc. *)
Module Urllib.

Definition uses_relative : list string :=
  [""; "ftp"; "http"; "gopher"; "nntp"; "imap"; "wais"; "file"; "https";
   "shttp"; "mms"; "prospero"; "rtsp"; "rtsps"; "rtspu"; "sftp"; "svn";
   "svn+ssh"; "ws"; "wss"].

Definition uses_netloc : list string :=
  [""; "ftp"; "http"; "gopher"; "nntp"; "telnet"; "imap"; "wais"; "file";
   "mms"; "https"; "shttp"; "snews"; "prospero"; "rtsp"; "rtsps"; "rtspu";
   "rsync"; "svn"; "svn+ssh"; "sftp"; "nfs"; "git"; "git+ssh"; "ws"; "wss";
   "itms-services"].

Definition uses_params : list string :=
  [""; "ftp"; "hdl"; "prospero"; "http"; "imap"; "https"; "shttp"; "rtsp";
   "rtsps"; "rtspu"; "sip"; "sips"; "mms"; "sftp"; "tel"].

Definition scheme_chars : string :=
  "abcdefghijklmnopqrstuvwxyzABCDEFGHIJKLMNOPQRSTUVWXYZ0123456789+-.".

(** [x in xs] for a list of strings *)
Definition in_list (x : string) (xs : list string) : bool :=
  existsb (String.eqb x) xs.

(** [c in _WHATWG_C0_CONTROL_OR_SPACE]: the characters up to the space *)
Definition c0_control_or_space (c : ascii) : bool := (N_of_ascii c <=? 32)%N.

Fixpoint lstrip_c0 (s : string) : string :=
  match s with
  | String c s' => if c0_control_or_space c then lstrip_c0 s' else s
  | EmptyString => EmptyString
  end.

Fixpoint rstrip_c0 (s : string) : string :=
  match s with
  | String c s' =>
      match rstrip_c0 s' with
      | EmptyString =>
          if c0_control_or_space c then EmptyString else String c EmptyString
      | t => String c t
      end
  | EmptyString => EmptyString
  end.

(** The loop over [_UNSAFE_URL_BYTES_TO_REMOVE]: tab, CR and LF go. *)
Definition remove_unsafe (s : string) : string :=
  Str.remove "010" (Str.remove "013" (Str.remove "009" s)).

Definition isalpha_ascii (c : ascii) : bool :=
  let n := N_of_ascii c in
  (((65 <=? n) && (n <=? 90)) || ((97 <=? n) && (n <=? 122)))%N.

(** [_splitnetloc(url, start)] *)
Definition _splitnetloc (url : string) (start : nat) : string * string :=
  let delim :=
    foldl (λ delim c, match Str.find_from c start url with
                      | Some wdelim => Nat.min delim wdelim
                      | None => delim
                      end)
          (String.length url) ["/"; "?"; "#"]%char in
  (Str.drop start (Str.take delim url), Str.drop delim url).

(** [s.split(c, 1)] when [c in s]: the text before and after the first [c] *)
Definition split1 (c : ascii) (s : string) : option (string * string) :=
  (λ i, (Str.take i s, Str.drop (S i) s)) <$> Str.find c s.

Record SplitResult : Type := mkSplitResult {
  s_scheme : string; s_netloc : string; s_path : string;
  s_query : string; s_fragment : string }.

(** [urlsplit(url, scheme)] *)
Definition urlsplit (url scheme : string) : SplitResult :=
  let url := lstrip_c0 url in
  let scheme := rstrip_c0 (lstrip_c0 scheme) in
  let url := remove_unsafe url in
  let scheme := remove_unsafe scheme in
  let '(scheme, url) :=
    match Str.find ":" url, url with
    | Some (S i' as i), String c0 _ =>
        if isalpha_ascii c0 && Str.all_in scheme_chars (Str.take i url)
        then (Str.lower (Str.take i url), Str.drop (S i) url)
        else (scheme, url)
    | _, _ => (scheme, url)
    end in
  let '(netloc, url) :=
    if Str.startswith url "//" && (2 <=? String.length url)%nat
    then _splitnetloc url 2 else (EmptyString, url) in
  let '(url, fragment) :=
    match split1 "#" url with Some p => p | None => (url, EmptyString) end in
  let '(url, query) :=
    match split1 "?" url with Some p => p | None => (url, EmptyString) end in
  mkSplitResult scheme netloc url query fragment.

(** [_splitparams(url)] *)
Definition _splitparams (url : string) : string * string :=
  match Str.rfind "/" url with
  | Some slash =>
      match Str.find_from ";" slash url with
      | Some i => (Str.take i url, Str.drop (S i) url)
      | None => (url, EmptyString)
      end
  | None =>
      match Str.find ";" url with
      | Some i => (Str.take i url, Str.drop (S i) url)
      | None => (Str.take (String.length url - 1) url, url)
      end
  end.

(** [urlparse(url, scheme)] *)
Definition urlparse (url scheme : string) : ParseResult :=
  let r := urlsplit url scheme in
  let '(url, params) :=
    if in_list (s_scheme r) uses_params
       && bool_decide (is_Some (Str.find ";" (s_path r)))
    then _splitparams (s_path r) else (s_path r, EmptyString) in
  mkParseResult (s_scheme r) (s_netloc r) url params (s_query r) (s_fragment r).

(** [urlunsplit((scheme, netloc, url, query, fragment))] *)
Definition urlunsplit (scheme netloc url query fragment : string) : string :=
  let url :=
    if negb (Str.is_empty netloc)
       || (negb (Str.is_empty scheme) && in_list scheme uses_netloc
           && negb (String.eqb (Str.take 2 url) "//"))
    then
      let url :=
        if negb (Str.is_empty url) && negb (String.eqb (Str.take 1 url) "/")
        then "/" +:+ url else url in
      "//" +:+ netloc +:+ url
    else url in
  let url := if negb (Str.is_empty scheme) then scheme +:+ ":" +:+ url else url in
  let url := if negb (Str.is_empty query) then url +:+ "?" +:+ query else url in
  let url :=
    if negb (Str.is_empty fragment) then url +:+ "#" +:+ fragment else url in
  url.

(** [urlunparse((scheme, netloc, url, params, query, fragment))] *)
Definition urlunparse (p : ParseResult) : string :=
  let url :=
    if negb (Str.is_empty (params p)) then path p +:+ ";" +:+ params p
    else path p in
  urlunsplit (scheme p) (netloc p) url (query p) (fragment p).

(** The loop of [urljoin] that resolves the [.] and [..] segments. *)
Definition resolve (segments : list string) : list string :=
  foldl (λ resolved_path seg,
           if String.eqb seg ".." then removelast resolved_path
           else if String.eqb seg "." then resolved_path
           else resolved_path ++ [seg])
        [] segments.

(** [segments[1:-1] = filter(None, segments[1:-1])] *)
Definition squeeze (segments : list string) : list string :=
  match segments with
  | first :: ((_ :: _) as rest) =>
      first :: filter (λ seg, negb (Str.is_empty seg)) (removelast rest)
            ++ [List.last rest EmptyString]
  | _ => segments
  end.

(** [urljoin(base, url)] *)
Definition urljoin (base url : string) : string :=
  if Str.is_empty base then url
  else if Str.is_empty url then base
  else
    let b := urlparse base EmptyString in
    let u := urlparse url (scheme b) in
    if negb (String.eqb (scheme u) (scheme b))
       || negb (in_list (scheme u) uses_relative)
    then url
    else if in_list (scheme u) uses_netloc && negb (Str.is_empty (netloc u))
    then urlunparse u
    else
      let netloc' :=
        if in_list (scheme u) uses_netloc then netloc b else netloc u in
      if Str.is_empty (path u) && Str.is_empty (params u)
      then
        urlunparse
          (mkParseResult (scheme u) netloc' (path b) (params b)
             (if Str.is_empty (query u) then query b else query u)
             (fragment u))
      else
        let base_parts := Str.split "/" (path b) in
        let base_parts :=
          if negb (String.eqb (List.last base_parts EmptyString) EmptyString)
          then removelast base_parts else base_parts in
        let segments :=
          if String.eqb (Str.take 1 (path u)) "/"
          then Str.split "/" (path u)
          else squeeze (base_parts ++ Str.split "/" (path u)) in
        let resolved_path := resolve segments in
        let resolved_path :=
          if in_list (List.last segments EmptyString) ["."; ".."]
          then resolved_path ++ [EmptyString] else resolved_path in
        let joined := Str.join "/" resolved_path in
        urlunparse
          (mkParseResult (scheme u) netloc'
             (if Str.is_empty joined then "/" else joined)
             (params u) (query u) (fragment u)).

End Urllib.

(** ** The crawler on a concrete web *)

(** [urllib.parse] as modelled in [Urllib]. *)
Definition urllib : UrlLib :=
  {| urlparse url := Urllib.urlparse url EmptyString;
     urljoin := Urllib.urljoin |}.

(** A web given as a function, with sets iterated in the order of
    [elements]. *)
Definition world_of (web : string → string + soup) : World :=
  {| fetch := web;
     set_order xs := elements (list_to_set xs : gset string);
     set_order_perm xs := reflexivity _ |}.

(** A document made of one [<a href=...>] per entry. *)
Definition anchors (hrefs : list string) : soup :=
  (λ h, Tag "a" {["href" := h]}) <$> hrefs.

(** A web of finitely many pages; any other URL answers 404. *)
Definition web_of (pages : list (string * list string)) (url : string)
  : string + soup :=
  match list_find (λ p, p.1 = url) pages with
  | Some (_, (_, hrefs)) => inr (anchors hrefs)
  | None => inl ("404 Client Error: Not Found for url: " +:+ url)
  end.

(** The object a successful construction leaves. *)
Definition fresh (domain : string) (max_depth : Z) (rate_limit : Q) : Mapper :=
  {| domain := domain; max_depth := max_depth; rate_limit := rate_limit;
     visited := ∅; all_links := ∅ |}.

(** ** The crawl as a sequence of steps

    After the first page is marked visited, all that [crawl] does is: mark
    a discovered link visited and fetch it, discover a link that is eligible
    and not visited, or wait. *)
Section Steps.
Context {lib : UrlLib} {world : World}.

(** [crawl] up to its loop: the page is marked visited, logged and
    fetched; [found] are the links the loop then goes through. *)
Definition enter (url : string) (st : state) : soup * state :=
  _get_page url
    (emit (Log ("Visitando: [blue]" +:+ url +:+ "[/blue]"))
       (visited_add url st.1, st.2)).

Definition visit (url : string) (st : state) : state := (enter url st).2.

Definition found (url : string) (st : state) : list string :=
  _clean_links (_find_links (enter url st).1).

Inductive step : state → state → Prop :=
  | step_visit url st :
      url ∉ visited st.1 → url ∈ all_links st.1 →
      step st (visit url st)
  | step_discover url st :
      _is_valid_url st.1 url = true → url ∉ visited st.1 →
      step st (all_links_add url st.1, st.2)
  | step_wait st :
      step st (_rate_limit_wait st).

(** The fields that a crawl leaves alone. *)
Definition same_config (st st' : state) : Prop :=
  domain st'.1 = domain st.1 ∧ max_depth st'.1 = max_depth st.1
  ∧ rate_limit st'.1 = rate_limit st.1.

(** A URL that was discovered, visited and requested. *)
Definition followed (url : string) (st : state) : Prop :=
  url ∈ all_links st.1 ∧ url ∈ visited st.1 ∧ Request url ∈ st.2.

(** Some page links to two or more distinct followable sub-pages. *)
Definition branching (self : Mapper) : Prop :=
  ∃ url page l1 l2,
    fetch url = inr page
    ∧ l1 ∈ _clean_links (_find_links page)
    ∧ l2 ∈ _clean_links (_find_links page)
    ∧ urljoin (domain self) l1 ≠ urljoin (domain self) l2
    ∧ _is_valid_url self (urljoin (domain self) l1) = true
    ∧ _is_valid_url self (urljoin (domain self) l2) = true.

End Steps.

(** The characters of the host part of a stored domain: those of
    [[-a-zA-Z0-9]] and the dot. *)
Definition host_char (c : ascii) : bool :=
  in_class [("-", "-"); ("a", "z"); ("A", "Z"); ("0", "9")]%char c
  || Ascii.eqb c ".".

(** *** Example webs *)

(** The seed links to two pages, one of which links to a third. *)
Definition branching_site : string → string + soup :=
  web_of [("http://host.com", ["/a"; "/b"]);
          ("http://host.com/a", ["/c"])].

(** The seed links to itself by its path. *)
Definition home_link_site : string → string + soup :=
  web_of [("http://host.com", ["/"])].

(** No page answers. *)
Definition dead_site : string → string + soup := web_of [].

(** A page other than the seed links to ['//'], which resolves to the
    seed. *)
Definition back_link_site : string → string + soup :=
  web_of [("http://host.com/b", ["//"])].

(** The seed links to ['//'], which resolves to the seed itself, and to a
    sub-page. *)
Definition self_link_site : string → string + soup :=
  web_of [("http://host.com", ["//"; "/a"])].

(** ** What a crawl leaves in the effects, and what it reads of a page *)

(** The URLs requested, the lines logged and printed, and the waits, each in
    order. *)
Definition requests (tr : list effect) : list string :=
  omap (λ e, match e with Request url => Some url | _ => None end) tr.

Definition log_lines (tr : list effect) : list string :=
  omap (λ e, match e with Log line => Some line | _ => None end) tr.

Definition print_lines (tr : list effect) : list string :=
  omap (λ e, match e with Print line => Some line | _ => None end) tr.

Definition sleeps (tr : list effect) : list Q :=
  omap (λ e, match e with Sleep seconds => Some seconds | _ => None end) tr.

(** The pages requested are the pages visited, each requested once. *)
Definition requested_once (st : state) : Prop :=
  NoDup (requests st.2) ∧ ∀ url, url ∈ requests st.2 ↔ url ∈ visited st.1.

Section Pages.
Context {lib : UrlLib} {world : World}.

(** What [_get_page] returns for a URL. *)
Definition page_of (url : string) : soup :=
  match fetch url with inr page => page | inl _ => empty_soup end.

(** The links that the loop of [crawl] goes through for a page. *)
Definition links_of (url : string) : list string :=
  _clean_links (_find_links (page_of url)).

(** The line that [_get_page] prints for a URL, if its fetch fails. *)
Definition error_line (url : string) : option string :=
  match fetch url with
  | inl e => Some ("[red]Erro ao acessar " +:+ url +:+ ":[/red] " +:+ e)
  | inr _ => None
  end.

(** The effects are those of visits and waits: one log line per request,
    one printed line per request that failed, waits of [seconds] only. *)
Definition well_logged (seconds : Q) (tr : list effect) : Prop :=
  log_lines tr
  = (λ url, "Visitando: [blue]" +:+ url +:+ "[/blue]") <$> requests tr
  ∧ print_lines tr = omap error_line (requests tr)
  ∧ Forall (λ q, q = seconds) (sleeps tr).

(** [url] is what an eligible link of the page [page] resolves to. *)
Definition link_of_page (self : Mapper) (page url : string) : Prop :=
  ∃ link, link ∈ links_of page ∧ url = urljoin (domain self) link
          ∧ _is_valid_url self url = true.

(** Every eligible link of the page is discovered or visited. *)
Definition closed_in (dom : string) (url : string) (st : state) : Prop :=
  ∀ link, link ∈ links_of url →
          _is_valid_url st.1 (urljoin dom link) = true →
          urljoin dom link ∈ all_links st.1 ∪ visited st.1.

(** [b] is reached from [a] by following [k] eligible links, each from
    the page before it. *)
Fixpoint chain (self : Mapper) (k : nat) (a b : string) : Prop :=
  match k with
  | O => a = b
  | S k' => ∃ c, link_of_page self a c ∧ chain self k' c b
  end.

End Pages.

(** * Properties *)

(** ** Strings *)

(** [+:+] does not unfold under [simpl]; [app_step] computes it on a head
    that is a constructor. *)
Ltac app_step :=
  repeat match goal with
    | |- context [String ?c ?s +:+ ?t] =>
        change (String c s +:+ t) with (String c (s +:+ t))
    | |- context [EmptyString +:+ ?t] => change (EmptyString +:+ t) with t
    end.

Section StrFacts.
Implicit Types (s t p w : string) (c : ascii).

Lemma str_app_nil_r s : s +:+ "" = s.
Proof. induction s as [|c s IH]; [done|]. app_step. by rewrite IH. Qed.

Lemma str_app_assoc s t w : (s +:+ t) +:+ w = s +:+ (t +:+ w).
Proof. induction s as [|c s IH]; [done|]. app_step. by rewrite IH. Qed.

Lemma str_app_length s t :
  String.length (s +:+ t) = (String.length s + String.length t)%nat.
Proof. induction s as [|c s IH]; [done|]. app_step. simpl. by rewrite IH. Qed.

Lemma str_app_eq_nil s t : s +:+ t = "" → s = "" ∧ t = "".
Proof. by destruct s. Qed.

Lemma is_empty_true s : Str.is_empty s = true ↔ s = "".
Proof. by destruct s. Qed.

Lemma is_empty_app s t :
  Str.is_empty (s +:+ t) = Str.is_empty s && Str.is_empty t.
Proof. by destruct s. Qed.

Lemma take_drop n s : Str.take n s +:+ Str.drop n s = s.
Proof.
  revert s. induction n as [|n IH]; intros [|c s]; try done.
  simpl. app_step. by rewrite IH.
Qed.

Lemma take_app_length s t : Str.take (String.length s) (s +:+ t) = s.
Proof.
  induction s as [|c s IH]; [by destruct t|]. app_step. simpl. by rewrite IH.
Qed.

Lemma drop_app_length s t : Str.drop (String.length s) (s +:+ t) = t.
Proof. induction s as [|c s IH]; [by destruct t|]. app_step. done. Qed.

Lemma take_length_le n s : (String.length (Str.take n s) ≤ n)%nat.
Proof.
  revert s. induction n as [|n IH]; intros [|c s]; simpl; try lia.
  specialize (IH s). lia.
Qed.

Lemma drop_length n s :
  String.length (Str.drop n s) = (String.length s - n)%nat.
Proof. revert s. induction n as [|n IH]; intros [|c s]; simpl; auto. Qed.

(** [s.endswith(p)] holds exactly when [s] is some text followed by [p]. *)
Lemma endswith_spec s p :
  Str.endswith s p = true ↔ ∃ pre, s = pre +:+ p.
Proof.
  unfold Str.endswith. rewrite andb_true_iff, String.eqb_eq, Nat.leb_le.
  split.
  - intros [Hd _]. exists (Str.take (String.length s - String.length p) s).
    rewrite <- (take_drop (String.length s - String.length p) s) at 1.
    by rewrite Hd.
  - intros [pre ->]. rewrite str_app_length.
    replace (String.length pre + String.length p - String.length p)%nat
      with (String.length pre) by lia.
    split; [apply drop_app_length | lia].
Qed.

Lemma lstrip_length chars s :
  (String.length (Str.lstrip chars s) ≤ String.length s)%nat.
Proof.
  induction s as [|c s IH]; simpl; [done|].
  destruct (Str.mem c chars); simpl; lia.
Qed.

Lemma rstrip_length chars s :
  (String.length (Str.rstrip chars s) ≤ String.length s)%nat.
Proof.
  induction s as [|c s IH]; simpl; [done|].
  destruct (Str.rstrip chars s); [destruct (Str.mem c chars)|];
    simpl in *; lia.
Qed.

Lemma strip_length chars s :
  (String.length (Str.strip chars s) ≤ String.length s)%nat.
Proof.
  unfold Str.strip. etrans; [apply rstrip_length | apply lstrip_length].
Qed.

End StrFacts.

(** ** The crawler *)

Section CrawlerFacts.
Context {lib : UrlLib} {world : World}.
Implicit Types (st : state) (url link : string) (depth : Z) (n : nat).

Lemma foldl_invariant {A B} (P : A → Prop) (f : A → B → A) (l : list B) a :
  P a → (∀ a x, P a → x ∈ l → P (f a x)) → P (foldl f a l).
Proof.
  revert a. induction l as [|x l IH]; intros a Ha Hf; simpl; [done|].
  apply IH.
  - apply Hf; [done | left].
  - intros a' y Ha' Hy. apply Hf; [done | by right].
Qed.

Lemma foldl_ext_invariant {A B} (P : A → Prop) (f g : A → B → A)
    (l : list B) a :
  P a → (∀ a x, P a → f a x = g a x) → (∀ a x, P a → P (f a x)) →
  foldl f a l = foldl g a l.
Proof.
  revert a. induction l as [|x l IH]; intros a Ha Hfg Hf; simpl; [done|].
  rewrite <- (Hfg a x Ha). apply IH; auto.
Qed.

Lemma crawl_at_S n url depth st :
  crawl_at (S n) url depth st =
    if depth >? max_depth st.1 then st
    else if bool_decide (url ∈ visited st.1) then st
    else foldl (follow (crawl_at n) depth) (visit url st) (found url st).
Proof.
  simpl. unfold visit, found, enter.
  destruct (depth >? max_depth st.1); [done|].
  destruct (bool_decide (url ∈ visited st.1)); [done|].
  by destruct (_get_page _ _).
Qed.

(** *** What a step keeps *)

Lemma visit_fst url st : (visit url st).1 = visited_add url st.1.
Proof. unfold visit, enter, _get_page. by destruct (fetch url). Qed.

Lemma visit_request url st : Request url ∈ (visit url st).2.
Proof.
  unfold visit, enter, _get_page, emit.
  destruct (fetch url); simpl; set_solver.
Qed.

Lemma visit_trace url st : ∃ tr, (visit url st).2 = st.2 ++ tr.
Proof.
  unfold visit, enter, _get_page, emit.
  destruct (fetch url); simpl; rewrite <- ?(assoc_L (++)); eauto.
Qed.

Lemma step_same_config st st' : step st st' → same_config st st'.
Proof. intros []; unfold same_config; rewrite ?visit_fst; done. Qed.

Lemma steps_same_config st st' : rtc step st st' → same_config st st'.
Proof.
  induction 1 as [|st st1 st2 H1 _ IH]; [by repeat split|].
  apply step_same_config in H1. unfold same_config in *. intuition congruence.
Qed.

Lemma steps_visited_mono st st' :
  rtc step st st' → visited st.1 ⊆ visited st'.1.
Proof.
  induction 1 as [|st st1 st2 Hstep _ IH]; [done|].
  etrans; [|exact IH].
  destruct Hstep as [u st Hnv Hal|u st Hok Hnv|st];
    rewrite ?visit_fst; set_solver.
Qed.

Lemma steps_all_links_mono st st' :
  rtc step st st' → all_links st.1 ⊆ all_links st'.1.
Proof.
  induction 1 as [|st st1 st2 Hstep _ IH]; [done|].
  etrans; [|exact IH].
  destruct Hstep as [u st Hnv Hal|u st Hok Hnv|st];
    rewrite ?visit_fst; set_solver.
Qed.

Lemma steps_trace_mono st st' e : rtc step st st' → e ∈ st.2 → e ∈ st'.2.
Proof.
  induction 1 as [|st st1 st2 Hstep _ IH]; [done|].
  intros He. apply IH. destruct Hstep; simpl; [|done|set_solver].
  destruct (visit_trace url st) as [tr ->]. set_solver.
Qed.

(** Whatever is visited after the first page was discovered before. *)
Lemma steps_visited_discovered st st' :
  rtc step st st' → visited st'.1 ⊆ visited st.1 ∪ all_links st'.1.
Proof.
  revert st'. apply rtc_ind_r; [set_solver|].
  intros st1 st2 _ Hstep IH.
  destruct Hstep as [u st1 Hnv Hal|u st1 Hok Hnv|st1];
    rewrite ?visit_fst; simpl in *; set_solver.
Qed.

(** A URL that is visited is never discovered afterwards. *)
Lemma steps_visited_not_discovered st st' url :
  rtc step st st' → url ∈ visited st.1 → url ∉ all_links st.1 →
  url ∉ all_links st'.1.
Proof.
  intros Hs Hv. induction Hs as [st'|st1 st2 st' Hstep Hs IH]; [done|].
  intros Hn.
  apply IH; destruct Hstep as [u st1 Hnv Hal|u st1 Hok Hnv|st1];
    rewrite ?visit_fst; set_solver.
Qed.

(** Whatever is visited was requested. *)
Lemma steps_visited_requested st st' url :
  rtc step st st' → url ∈ visited st'.1 →
  url ∈ visited st.1 ∨ Request url ∈ st'.2.
Proof.
  revert st'.
  apply (rtc_ind_r (λ st', url ∈ visited st'.1 →
                           url ∈ visited st.1 ∨ Request url ∈ st'.2));
    [by left|].
  intros st1 st2 _ Hstep IH.
  destruct Hstep as [u st1 ? ?|u st1 ? ?|st1]; rewrite ?visit_fst; simpl.
  - intros [->%elem_of_singleton|Hu]%elem_of_union.
    + right. apply visit_request.
    + destruct (IH Hu) as [?|?]; [by left|right].
      destruct (visit_trace u st1) as [tr ->]. set_solver.
  - exact IH.
  - intros Hu. destruct (IH Hu) as [?|?]; [by left|right]. set_solver.
Qed.

(** *** [crawl] is a visit followed by steps, or nothing *)

Lemma follow_steps rec depth st link :
  (∀ url st1, url ∈ all_links st1.1 → rtc step st1 (rec url (depth + 1) st1)) →
  rtc step st (follow rec depth st link).
Proof.
  intros Hrec. unfold follow.
  destruct (_is_valid_url _ _ && _) eqn:Hc; [|done].
  apply andb_true_iff in Hc as [Hv Hn%bool_decide_eq_true].
  eapply rtc_l; [by apply step_discover|].
  eapply rtc_r; [|apply step_wait].
  apply Hrec. simpl. set_solver.
Qed.

Lemma crawl_at_steps n url depth st :
  url ∈ all_links st.1 → rtc step st (crawl_at n url depth st).
Proof.
  revert url depth st. induction n as [|n IH]; intros url depth st Hu; [done|].
  rewrite crawl_at_S.
  destruct (depth >? max_depth st.1); [done|].
  destruct (bool_decide (url ∈ visited st.1)) eqn:Hv; [done|].
  apply bool_decide_eq_false in Hv.
  eapply rtc_l; [by apply step_visit|].
  apply (foldl_invariant (rtc step (visit url st))); [done|].
  intros a link Ha _. etrans; [exact Ha|].
  apply follow_steps. intros. by apply IH.
Qed.

Lemma loop_steps n depth st links :
  rtc step st (foldl (follow (crawl_at n) depth) st links).
Proof.
  apply (foldl_invariant (rtc step st)); [done|].
  intros a link Ha _. etrans; [exact Ha|].
  apply follow_steps. intros. by apply crawl_at_steps.
Qed.

Lemma crawl_at_same_config n url depth st :
  same_config st (crawl_at n url depth st).
Proof.
  destruct n as [|n]; [by repeat split|]. rewrite crawl_at_S.
  destruct (depth >? max_depth st.1); [by repeat split|].
  destruct (bool_decide (url ∈ visited st.1)); [by repeat split|].
  pose proof (steps_same_config _ _ (loop_steps n depth (visit url st)
                                       (found url st))) as Hc.
  unfold same_config in *. rewrite visit_fst in Hc. exact Hc.
Qed.

(** More nested calls than the depth test lets through change nothing. *)
Lemma crawl_at_enough n url depth st :
  (Z.to_nat (max_depth st.1 + 1 - depth) ≤ n)%nat →
  crawl_at n url depth st = crawl url depth st.
Proof.
  unfold crawl. revert url depth st.
  induction n as [|n IH]; intros url depth st Hn.
  { by replace (Z.to_nat _) with O by lia. }
  destruct (Z.to_nat (max_depth st.1 + 1 - depth)) as [|m] eqn:Hm.
  { rewrite crawl_at_S. simpl.
    by replace (depth >? max_depth st.1) with true by lia. }
  rewrite !crawl_at_S.
  destruct (depth >? max_depth st.1); [done|].
  destruct (bool_decide (url ∈ visited st.1)); [done|].
  apply (foldl_ext_invariant (λ a, max_depth a.1 = max_depth st.1)).
  - by rewrite visit_fst.
  - intros a link Ha. unfold follow.
    destruct (_is_valid_url _ _ && _); [|done].
    rewrite IH by (simpl; lia). simpl. rewrite Ha.
    by replace (Z.to_nat (max_depth st.1 + 1 - (depth + 1))) with m by lia.
  - intros a link Ha.
    destruct (steps_same_config a (follow (crawl_at n) depth a link))
      as (_ & -> & _); [|done].
    apply follow_steps. intros. by apply crawl_at_steps.
Qed.

(** The recursion equation of [crawl], as in the source. *)
Lemma crawl_eq url depth st :
  crawl url depth st =
    if depth >? max_depth st.1 then st
    else if bool_decide (url ∈ visited st.1) then st
    else foldl (follow crawl depth) (visit url st) (found url st).
Proof.
  unfold crawl at 1.
  destruct (Z.to_nat (max_depth st.1 + 1 - depth)) as [|m] eqn:Hm.
  { simpl. by replace (depth >? max_depth st.1) with true by lia. }
  rewrite crawl_at_S.
  destruct (depth >? max_depth st.1) eqn:Hd; [done|].
  destruct (bool_decide (url ∈ visited st.1)); [done|].
  apply (foldl_ext_invariant (λ a, max_depth a.1 = max_depth st.1)).
  - by rewrite visit_fst.
  - intros a link Ha. unfold follow.
    destruct (_is_valid_url _ _ && _); [|done].
    rewrite crawl_at_enough; [done|]. simpl. lia.
  - intros a link Ha.
    destruct (steps_same_config a (follow (crawl_at m) depth a link))
      as (_ & -> & _); [|done].
    apply follow_steps. intros. by apply crawl_at_steps.
Qed.

Lemma crawl_skip url depth st :
  depth > max_depth st.1 ∨ url ∈ visited st.1 → crawl url depth st = st.
Proof.
  intros Hs. rewrite crawl_eq.
  destruct (depth >? max_depth st.1) eqn:Hd; [done|].
  destruct Hs as [?|Hv]; [lia|]. by rewrite bool_decide_eq_true_2.
Qed.

Lemma crawl_steps url depth st :
  depth ≤ max_depth st.1 → url ∉ visited st.1 →
  rtc step (visit url st) (crawl url depth st).
Proof.
  intros Hd Hv. rewrite crawl_eq.
  replace (depth >? max_depth st.1) with false by lia.
  rewrite bool_decide_eq_false_2 by done.
  apply (foldl_invariant (rtc step (visit url st))); [done|].
  intros a link Ha _. etrans; [exact Ha|].
  apply follow_steps. intros. by apply crawl_at_steps.
Qed.

Lemma found_nothing url st e : fetch url = inl e → found url st = [].
Proof.
  intros He. unfold found, enter, _get_page. rewrite He.
  unfold _clean_links, _find_links, empty_soup. simpl.
  apply Permutation_nil_r.
  rewrite <- (elements_empty (C := gset string)). apply set_order_perm.
Qed.

Lemma elem_of_sorted_set (X : gset string) u : u ∈ sorted (elements X) ↔ u ∈ X.
Proof.
  unfold sorted. rewrite merge_sort_Permutation. apply elem_of_elements.
Qed.

(** Sorting does not depend on the order of what is sorted. *)
Lemma sorted_any_order (xs ys : list string) : xs ≡ₚ ys → sorted xs = sorted ys.
Proof.
  intros Hp. unfold sorted.
  apply (StronglySorted_unique String.le);
    [apply StronglySorted_merge_sort; apply _..|].
  by rewrite !merge_sort_Permutation.
Qed.

Lemma NoDup_set_order (xs : list string) : NoDup (set_order xs).
Proof. rewrite set_order_perm. apply NoDup_elements. Qed.

Lemma length_set_order (xs : list string) :
  length (set_order xs) = size (list_to_set xs : gset string).
Proof. by rewrite set_order_perm. Qed.

(** ** The claims on the crawler *)

(** C2. [map_web_site] returns the discovered-link set as a sequence in
    ascending order: the sequence is sorted, has no element twice, and its
    elements are exactly the members of [all_links] after the crawl. *)
Theorem map_web_site_sorted_set st :
  StronglySorted String.le (map_web_site st).1
  ∧ NoDup (map_web_site st).1
  ∧ ∀ url, url ∈ (map_web_site st).1 ↔ url ∈ all_links ((map_web_site st).2).1.
Proof.
  unfold map_web_site. simpl. split_and!.
  - apply StronglySorted_merge_sort; apply _.
  - unfold sorted. rewrite merge_sort_Permutation. apply NoDup_elements.
  - intros url. apply elem_of_sorted_set.
Qed.

(** C3, amended. After a full crawl by a new object with [max_depth >= 0],
    the visited pages are the seed and the discovered links that were
    followed: [|visited| + |discovered, never visited| = |all_links| + 1].
    So the two sets differ in cardinality exactly when the number of
    discovered links the depth bound left unvisited is not one, whatever
    the branching of the site. *)
Theorem visited_vs_discovered seed md rl tr :
  0 ≤ md →
  let st' := (map_web_site (fresh seed md rl, tr)).2 in
  (size (visited st'.1) + size (all_links st'.1 ∖ visited st'.1)
   = size (all_links st'.1) + 1)%nat
  ∧ (size (visited st'.1) ≠ size (all_links st'.1)
     ↔ size (all_links st'.1 ∖ visited st'.1) ≠ 1%nat).
Proof.
  intros Hmd. simpl.
  set (st := (fresh seed md rl, tr)).
  assert (rtc step (visit seed st) (crawl seed 0 st)) as Hs
    by (apply crawl_steps; simpl; [lia | set_solver]).
  set (st' := crawl seed 0 st) in *.
  pose proof (steps_visited_discovered _ _ Hs) as Hsub.
  pose proof (steps_visited_mono _ _ Hs) as Hmono.
  pose proof (steps_visited_not_discovered _ _ seed Hs) as Hseed.
  rewrite visit_fst in Hsub, Hmono, Hseed. simpl in Hsub, Hmono, Hseed.
  assert (seed ∉ all_links st'.1) as Hn by (apply Hseed; set_solver).
  assert (visited st'.1 = {[seed]} ∪ (all_links st'.1 ∩ visited st'.1)) as HV
    by set_solver.
  assert (all_links st'.1
          = (all_links st'.1 ∩ visited st'.1)
            ∪ (all_links st'.1 ∖ visited st'.1)) as HA.
  { apply set_eq. intros x. rewrite elem_of_union, elem_of_intersection,
      elem_of_difference. destruct (decide (x ∈ visited st'.1)); tauto. }
  assert (size (visited st'.1)
          = S (size (all_links st'.1 ∩ visited st'.1))) as HsV.
  { rewrite HV at 1. rewrite size_union by set_solver.
    by rewrite size_singleton. }
  assert (size (all_links st'.1)
          = (size (all_links st'.1 ∩ visited st'.1)
             + size (all_links st'.1 ∖ visited st'.1))%nat) as HsA.
  { rewrite HA at 1. rewrite size_union by set_solver. done. }
  lia.
Qed.

(** C5. A page whose fetch fails is marked visited, yields no link and ends
    its [crawl] there: one log line, one request, one error line, nothing
    discovered. When that page is the seed of a new object,
    [map_web_site] returns the empty list with the seed alone visited. *)
Theorem fetch_failure_recovered st url depth e :
  depth ≤ max_depth st.1 → url ∉ visited st.1 → fetch url = inl e →
  crawl url depth st
  = (visited_add url st.1,
     st.2 ++ [Log ("Visitando: [blue]" +:+ url +:+ "[/blue]");
              Request url;
              Print ("[red]Erro ao acessar " +:+ url +:+ ":[/red] " +:+ e)])
  ∧ (url = domain st.1 → depth = 0 →
     visited st.1 = ∅ → all_links st.1 = ∅ →
     (map_web_site st).1 = []
     ∧ visited ((map_web_site st).2).1 = {[url]}
     ∧ all_links ((map_web_site st).2).1 = ∅).
Proof.
  intros Hd Hv He.
  assert (crawl url depth st
          = (visited_add url st.1,
             st.2 ++ [Log ("Visitando: [blue]" +:+ url +:+ "[/blue]");
                      Request url;
                      Print ("[red]Erro ao acessar " +:+ url
                             +:+ ":[/red] " +:+ e)])) as Hc.
  { rewrite crawl_eq.
    replace (depth >? max_depth st.1) with false by lia.
    rewrite bool_decide_eq_false_2 by done.
    rewrite (found_nothing _ _ e He). simpl.
    unfold visit, enter, _get_page, emit. rewrite He. simpl.
    by rewrite <- !(assoc_L (++)). }
  split; [exact Hc|].
  intros -> -> Hv0 Ha0. unfold map_web_site. rewrite Hc. simpl.
  rewrite Hv0, Ha0. split_and!; [|set_solver|done].
  unfold sorted. apply Permutation_nil_r.
  rewrite merge_sort_Permutation. by rewrite elements_empty.
Qed.

(** C6. At a depth beyond [max_depth], [crawl] returns at once: the
    object and the effects are as before, and the URL is not marked
    visited by the call. *)
Theorem crawl_beyond_max_depth st url depth :
  depth > max_depth st.1 →
  crawl url depth st = st
  ∧ visited (crawl url depth st).1 = visited st.1
  ∧ all_links (crawl url depth st).1 = all_links st.1.
Proof. intros Hd. by rewrite crawl_skip by (by left). Qed.

(** C7, amended. [map_web_site] does not discover the seed: the stored
    domain is in [all_links] after the call, and in the returned sequence,
    exactly when it was in [all_links] before the call. For a new object,
    where the set is empty, it is in neither, also when a page links back
    to the seed. The stored domain is the same afterwards. *)
Theorem seed_never_discovered st :
  (domain st.1 ∈ all_links ((map_web_site st).2).1
   ↔ domain st.1 ∈ all_links st.1)
  ∧ (domain st.1 ∈ (map_web_site st).1 ↔ domain st.1 ∈ all_links st.1)
  ∧ (all_links st.1 = ∅ → domain st.1 ∉ (map_web_site st).1)
  ∧ domain ((map_web_site st).2).1 = domain st.1.
Proof.
  unfold map_web_site. simpl.
  assert (domain (crawl (domain st.1) 0 st).1 = domain st.1) as Hd
    by apply crawl_at_same_config.
  assert (domain st.1 ∈ all_links (crawl (domain st.1) 0 st).1
          ↔ domain st.1 ∈ all_links st.1) as Hiff.
  { destruct (decide (0 > max_depth st.1 ∨ domain st.1 ∈ visited st.1))
      as [Hs|Hs].
    { by rewrite crawl_skip. }
    assert (rtc step (visit (domain st.1) st) (crawl (domain st.1) 0 st))
      as Hst by (apply crawl_steps; [lia | tauto]).
    split.
    - intros Hin.
      destruct (decide (domain st.1 ∈ all_links st.1)) as [|Hn]; [done|].
      exfalso. revert Hin.
      apply (steps_visited_not_discovered (visit (domain st.1) st)); [done| |].
      + rewrite visit_fst. set_solver.
      + by rewrite visit_fst.
    - intros Hin. apply (steps_all_links_mono _ _ Hst). by rewrite visit_fst. }
  split_and!; [done| | |done].
  - by rewrite elem_of_sorted_set.
  - intros He. rewrite elem_of_sorted_set, Hiff, He. apply not_elem_of_empty.
Qed.

End CrawlerFacts.

(** ** Links and URLs *)

Section LinkFacts.
Context {lib : UrlLib} {world : World}.

(** A raw link is kept by the filter of [_clean_links] exactly when it
    begins with a slash. *)
Lemma followable_iff link :
  negb (Str.is_empty link)
  && bool_decide (is_Some (re_match LINK_PATTERN link)) = true
  ↔ ∃ rest, link = String "/" rest.
Proof.
  destruct link as [|c rest]; simpl.
  { split; [done | by intros [? ?]]. }
  unfold re_match, match_at. cbn -[Ascii.eqb].
  destruct (Ascii.eqb_spec "/" c) as [<-|Hc]; simpl.
  - split; [eauto | done].
  - split; [done | intros [? [=]]; congruence].
Qed.

Lemma elem_of_clean_links links link :
  link ∈ _clean_links links ↔ link ∈ links ∧ ∃ rest, link = String "/" rest.
Proof.
  unfold _clean_links.
  rewrite set_order_perm, elem_of_elements, elem_of_list_to_set,
    list_elem_of_filter, Is_true_true, followable_iff. tauto.
Qed.

Lemma size_list_to_set_length (l : list string) :
  (size (list_to_set l : gset string) ≤ length l)%nat
  ∧ (size (list_to_set l : gset string) = length l ↔ NoDup l).
Proof.
  induction l as [|x l [IHle IHeq]].
  { rewrite list_to_set_nil, size_empty. simpl.
    split; [done|]. split; [constructor|done]. }
  rewrite list_to_set_cons. simpl.
  destruct (decide (x ∈ l)) as [Hx|Hx].
  - replace ({[x]} ∪ list_to_set l : gset string)
      with (list_to_set l : gset string) by set_solver.
    split; [lia|]. split; [lia|]. by intros [? ?]%NoDup_cons.
  - rewrite size_union, size_singleton by set_solver.
    split; [lia|]. rewrite NoDup_cons, <- IHeq. split; [|lia].
    intros [=]. done.
Qed.

Lemma filter_all {A} (P : A → Prop) `{!∀ x, Decision (P x)} (l : list A) :
  Forall P l → filter P l = l.
Proof.
  induction 1 as [|x l Hx _ IH]; [done|].
  rewrite filter_cons_True by done. by rewrite IH.
Qed.

Lemma clean_links_length links :
  (∀ link, link ∈ links → ∃ rest, link = String "/" rest) →
  length (_clean_links links) = size (list_to_set links : gset string).
Proof.
  intros Hl. unfold _clean_links. rewrite length_set_order.
  rewrite filter_all; [done|].
  apply Forall_forall. intros link Hin.
  apply Is_true_true, followable_iff. auto.
Qed.

(** C8, amended. Cleaning a list of links that all begin with a slash
    drops no link: the result has each link of the input, once. It is as
    long as the input exactly when the input has no link twice; a repeated
    link is kept once. *)
Theorem clean_links_of_valid links :
  (∀ link, link ∈ links → ∃ rest, link = String "/" rest) →
  (∀ link, link ∈ _clean_links links ↔ link ∈ links)
  ∧ NoDup (_clean_links links)
  ∧ (length (_clean_links links) ≤ length links)%nat
  ∧ (length (_clean_links links) = length links ↔ NoDup links).
Proof.
  intros Hl. split_and!.
  - intros link. rewrite elem_of_clean_links. naive_solver.
  - apply NoDup_set_order.
  - rewrite clean_links_length by done. apply size_list_to_set_length.
  - rewrite clean_links_length by done. apply size_list_to_set_length.
Qed.

Lemma is_valid_url_iff (self : Mapper) url :
  _is_valid_url self url = true
  ↔ netloc (urlparse url) = netloc (urlparse (domain self))
    ∧ ∀ ext, ext ∈ non_content → ¬ ∃ pre, path (urlparse url) = pre +:+ ext.
Proof.
  unfold _is_valid_url.
  destruct (String.eqb_spec (netloc (urlparse url))
              (netloc (urlparse (domain self)))) as [Hn|Hn]; cbn [negb].
  - destruct (existsb (λ ext, Str.endswith (path (urlparse url)) ext)
                non_content) eqn:Hex.
    + split; [done|]. intros [_ Hno].
      apply existsb_exists in Hex as (ext & Hin & He).
      apply list_elem_of_In in Hin. apply endswith_spec in He.
      by destruct (Hno ext Hin).
    + split; [|done]. intros _. split; [done|].
      intros ext Hin He%endswith_spec. apply list_elem_of_In in Hin.
      assert (existsb (λ ext, Str.endswith (path (urlparse url)) ext)
                non_content = true) as Hex'
        by (apply existsb_exists; eauto).
      congruence.
  - split; [done | tauto].
Qed.

End LinkFacts.

(** ** The matcher against the meaning of patterns *)

Section RegexFacts.
Implicit Types (r : regex) (b : bool) (s w m rest : string) (x y z : cfg).

Lemma elem_of_rep step lo hi x y :
  y ∈ rep step lo hi x ↔ ∃ n, (lo ≤ n ≤ hi)%nat ∧ iter_paths step n x y.
Proof.
  revert lo x. induction hi as [|hi IH]; intros lo x; simpl.
  - destruct lo as [|lo].
    + rewrite list_elem_of_singleton. split.
      * intros ->. exists O. by split; [lia|].
      * intros (n & Hn & Hi). by replace n with O in Hi by lia.
    + rewrite elem_of_nil. split; [done|]. intros (n & Hn & _). lia.
  - rewrite elem_of_app, list_elem_of_bind. split.
    + intros [(z & Hy & Hz)|Hy].
      * apply IH in Hy as (n & Hn & Hi). exists (S n). split; [lia|].
        simpl. eauto.
      * destruct lo; [|by apply elem_of_nil in Hy].
        apply list_elem_of_singleton in Hy as ->.
        exists O. by split; [lia|].
    + intros ([|n] & Hn & Hi); simpl in Hi.
      * right. subst y. replace lo with O by lia.
        by apply list_elem_of_singleton.
      * left. destruct Hi as (z & Hz & Hi). exists z. split; [|done].
        apply IH. exists n. split; [lia | done].
Qed.

Lemma consumes_iter (P : bool → string → Prop) n b w :
  (∀ b w, P b w → w ≠ "") → iter P n b w → (n ≤ String.length w)%nat.
Proof.
  intros HP. revert b w. induction n as [|n IH]; intros b w; simpl; [lia|].
  intros (w1 & w2 & -> & H1 & H2). rewrite str_app_length.
  apply HP in H1. apply IH in H2. destruct w1; [done | simpl; lia].
Qed.

Lemma consumes_sound r :
  consumes r = true → ∀ b w, Match r b w → w ≠ "".
Proof.
  induction r as [|c|ranges|r1 IH1 r2 IH2|lo hi r1 IH1|]; simpl;
    try done.
  - intros _ b w ->. done.
  - intros _ b w (c & _ & ->). done.
  - intros [Hc|Hc]%orb_true_iff b w (w1 & w2 & -> & H1 & H2) Hw;
      apply str_app_eq_nil in Hw as [-> ->]; [by eapply IH1 | by eapply IH2].
  - intros [Hlo%Nat.ltb_lt Hc]%andb_true_iff b w (n & Hn & _ & Hi) ->.
    apply (consumes_iter _ _ _ _ (IH1 Hc)) in Hi. simpl in Hi. lia.
Qed.

Lemma iter_paths_spec r n :
  (∀ b s b' rest,
     (b', rest) ∈ paths r (b, s)
     ↔ ∃ w, s = w +:+ rest ∧ Match r b w ∧ b' = b && Str.is_empty w) →
  ∀ b s b' rest,
    iter_paths (paths r) n (b, s) (b', rest)
    ↔ ∃ w, s = w +:+ rest ∧ iter (Match r) n b w ∧ b' = b && Str.is_empty w.
Proof.
  intros Hr. induction n as [|n IH]; intros b s b' rest; simpl.
  - split.
    + intros [= -> ->]. exists "". by rewrite andb_true_r.
    + intros (w & -> & -> & ->). by rewrite andb_true_r.
  - split.
    + intros ([b1 s1] & (w1 & -> & H1 & ->)%Hr & (w2 & -> & H2 & ->)%IH).
      exists (w1 +:+ w2). rewrite str_app_assoc, is_empty_app, andb_assoc.
      split_and!; [done| |done]. eauto.
    + intros (w & -> & (w1 & w2 & -> & H1 & H2) & ->).
      exists (b && Str.is_empty w1, w2 +:+ rest). split.
      * apply Hr. exists w1. by rewrite str_app_assoc.
      * apply IH. exists w2. by rewrite is_empty_app, andb_assoc.
Qed.

(** The matcher finds a remainder exactly when what comes before it is
    matched by the pattern. *)
Theorem paths_spec r :
  well_formed r = true →
  ∀ b s b' rest,
    (b', rest) ∈ paths r (b, s)
    ↔ ∃ w, s = w +:+ rest ∧ Match r b w ∧ b' = b && Str.is_empty w.
Proof.
  induction r as [|c|ranges|r1 IH1 r2 IH2|lo hi r1 IH1|];
    intros Hwf b s b' rest; cbn -[Ascii.eqb].
  - rewrite list_elem_of_singleton. split.
    + intros [= -> ->]. exists "". by rewrite andb_true_r.
    + intros (w & -> & -> & ->). by rewrite andb_true_r.
  - destruct s as [|d s].
    { rewrite elem_of_nil. split; [done|]. by intros (w & ? & -> & _). }
    destruct (Ascii.eqb_spec c d) as [<-|Hcd].
    + rewrite list_elem_of_singleton. split.
      * intros [= -> ->]. exists (String c ""). by rewrite andb_false_r.
      * intros (w & Hs & -> & ->). injection Hs as ->.
        by rewrite andb_false_r.
    + rewrite elem_of_nil. split; [done|].
      intros (w & Hs & -> & _). injection Hs as ? _. done.
  - destruct s as [|d s].
    { rewrite elem_of_nil. split; [done|]. by intros (w & ? & (? & _ & ->) & _). }
    destruct (in_class ranges d) eqn:Hd.
    + rewrite list_elem_of_singleton. split.
      * intros [= -> ->]. exists (String d ""). rewrite andb_false_r. eauto.
      * intros (w & Hs & (c & _ & ->) & ->). injection Hs as _ ->.
        by rewrite andb_false_r.
    + rewrite elem_of_nil. split; [done|].
      intros (w & Hs & (c & Hc & ->) & _). injection Hs as -> _. congruence.
  - simpl in Hwf. apply andb_true_iff in Hwf as [Hwf1 Hwf2].
    rewrite list_elem_of_bind. split.
    + intros ([b1 s1] & (w2 & -> & H2 & ->)%IH2 & (w1 & -> & H1 & ->)%IH1);
        [|done..].
      exists (w1 +:+ w2). rewrite str_app_assoc, is_empty_app, andb_assoc.
      split_and!; [done| |done]. eauto.
    + intros (w & -> & (w1 & w2 & -> & H1 & H2) & ->).
      exists (b && Str.is_empty w1, w2 +:+ rest). split.
      * apply IH2; [done|]. exists w2.
        by rewrite is_empty_app, andb_assoc.
      * apply IH1; [done|]. exists w1. by rewrite str_app_assoc.
  - simpl in Hwf. apply andb_true_iff in Hwf as [Hwf1 Hwf2].
    rewrite elem_of_rep. split.
    + intros (n & Hn & (w & -> & Hi & ->)%iter_paths_spec); [|by apply IH1].
      exists w. split_and!; [done| |done].
      exists n. split_and!; [lia| |done]. intros h ->. simpl in Hn. lia.
    + intros (w & -> & (n & Hlo & Hhi & Hi) & ->).
      exists n. split.
      * split; [done|]. destruct hi as [h|]; simpl; [by apply Hhi|].
        apply (consumes_iter (Match r1)) in Hi; [|by apply consumes_sound].
        rewrite str_app_length. lia.
      * apply iter_paths_spec; [by apply IH1|]. eauto.
  - destruct b; simpl.
    + rewrite list_elem_of_singleton. split.
      * intros [= -> ->]. by exists "".
      * by intros (w & -> & [_ ->] & ->).
    + rewrite elem_of_nil. split; [done|]. by intros (w & _ & [? _] & _).
Qed.

(** A pattern without [^] matches the same texts wherever they begin. *)
Lemma iter_flag (P : bool → string → Prop) n b b' w :
  (∀ b b' w, P b w → P b' w) → iter P n b w → iter P n b' w.
Proof.
  intros HP. revert b b' w. induction n as [|n IH]; intros b b' w; [done|].
  simpl. intros (w1 & w2 & -> & H1 & H2). exists w1, w2. eauto.
Qed.

Lemma Match_flag r b b' w : bol_free r = true → Match r b w → Match r b' w.
Proof.
  revert b b' w.
  induction r as [|c|ranges|r1 IH1 r2 IH2|lo hi r1 IH1|];
    intros b b' w; simpl; try done.
  - intros [H1 H2]%andb_true_iff (w1 & w2 & -> & M1 & M2).
    exists w1, w2. eauto.
  - intros Hf (n & Hlo & Hhi & Hi). exists n. split_and!; [done..|].
    eapply iter_flag; [|done]. eauto.
Qed.

(** *** [match_at] and [findall] *)

Lemma match_at_None r b s :
  well_formed r = true →
  match_at r (b, s) = None ↔ ∀ w rest, s = w +:+ rest → ¬ Match r b w.
Proof.
  intros Hwf. unfold match_at. split.
  - destruct (paths r (b, s)) as [|y l] eqn:Hp; [|done].
    intros _ w rest -> Hm.
    assert ((b && Str.is_empty w, rest) ∈ paths r (b, w +:+ rest)) as Hin
      by (apply paths_spec; eauto).
    rewrite Hp in Hin. by apply elem_of_nil in Hin.
  - intros Hno. destruct (paths r (b, s)) as [|[b' rest] l] eqn:Hp; [done|].
    assert ((b', rest) ∈ paths r (b, s)) as Hin by (rewrite Hp; left).
    apply paths_spec in Hin as (w & -> & Hm & _); [|done].
    by destruct (Hno w rest).
Qed.

Lemma match_at_Some r b s m y :
  well_formed r = true →
  match_at r (b, s) = Some (m, y) → s = m +:+ y.2 ∧ Match r b m.
Proof.
  intros Hwf. unfold match_at.
  destruct (paths r (b, s)) as [|[b' rest] l] eqn:Hp; [done|].
  intros [= <- <-]. simpl.
  assert ((b', rest) ∈ paths r (b, s)) as Hin by (rewrite Hp; left).
  apply paths_spec in Hin as (w & -> & Hm & _); [|done].
  rewrite str_app_length, Nat.add_sub, take_app_length. done.
Qed.

(** [findall] is empty exactly when no position of the subject starts a
    match. *)
Lemma findall_from_nil r b s :
  well_formed r = true →
  findall_from r b 0 s = []
  ↔ ∀ pre w post, s = pre +:+ w +:+ post →
                  ¬ Match r (b && Str.is_empty pre) w.
Proof.
  intros Hwf. revert b. induction s as [|c s IH]; intros b; simpl.
  - destruct (match_at r (b, "")) as [[m y]|] eqn:Hm.
    + split; [done|]. intros Hno.
      apply match_at_Some in Hm as [Hs Hm]; [|done].
      destruct (Hno "" m y.2 Hs). by rewrite andb_true_r.
    + split; [|done]. intros _ pre w post Hs.
      symmetry in Hs. apply str_app_eq_nil in Hs as [-> [-> ->]%str_app_eq_nil].
      rewrite andb_true_r. eapply match_at_None; [done..|]. by instantiate (1 := "").
  - destruct (match_at r (b, String c s)) as [[m y]|] eqn:Hm.
    + split; [done|]. intros Hno.
      apply match_at_Some in Hm as [Hs Hm]; [|done].
      destruct (Hno "" m y.2 Hs). by rewrite andb_true_r.
    + rewrite IH. split.
      * intros Hno [|d pre] w post Hs.
        -- rewrite andb_true_r. eapply match_at_None; [done..|]. exact Hs.
        -- injection Hs as -> ->. rewrite andb_false_r.
           specialize (Hno pre w post eq_refl). by rewrite andb_false_l in Hno.
      * intros Hno pre w post ->. rewrite andb_false_l.
        specialize (Hno (String c pre) w post eq_refl).
        by rewrite andb_false_r in Hno.
Qed.

(** The first element of [findall] is a match at the leftmost position
    where there is one. *)
Lemma findall_from_cons r b s m ms :
  well_formed r = true →
  findall_from r b 0 s = m :: ms →
  ∃ pre post,
    s = pre +:+ m +:+ post
    ∧ Match r (b && Str.is_empty pre) m
    ∧ ∀ pre' w post', s = pre' +:+ w +:+ post' →
                      Match r (b && Str.is_empty pre') w →
                      (String.length pre ≤ String.length pre')%nat.
Proof.
  intros Hwf. revert b. induction s as [|c s IH]; intros b; simpl.
  - destruct (match_at r (b, "")) as [[m' y]|] eqn:Hm; [|done].
    intros [= -> <-]. apply match_at_Some in Hm as [Hs Hm]; [|done].
    exists "", y.2. rewrite andb_true_r. split_and!; [done..|].
    intros; simpl; lia.
  - destruct (match_at r (b, String c s)) as [[m' y]|] eqn:Hm.
    + intros [= -> _]. apply match_at_Some in Hm as [Hs Hm]; [|done].
      exists "", y.2. rewrite andb_true_r. split_and!; [done..|].
      intros; simpl; lia.
    + intros (pre & post & -> & Hmm & Hleft)%IH.
      exists (String c pre), post. rewrite andb_false_r.
      rewrite andb_false_l in Hmm. split_and!; [done..|].
      intros [|d pre'] w post' Hs Hw.
      * rewrite andb_true_r in Hw.
        eapply match_at_None in Hm; [by destruct Hm|done|exact Hs].
      * injection Hs as _ Hs. rewrite andb_false_r in Hw.
        specialize (Hleft pre' w post' Hs).
        rewrite andb_false_l in Hleft. simpl. apply le_n_S. auto.
Qed.

End RegexFacts.

(** ** The constructor *)

Section ConstructorFacts.
Implicit Types (s w m : string).

Lemma re_fullmatch_spec r s :
  well_formed r = true → re_fullmatch r s = true ↔ Match r true s.
Proof.
  intros Hwf. unfold re_fullmatch. rewrite existsb_exists. split.
  - intros ([b' rest] & Hin%list_elem_of_In & He). simpl in He.
    apply is_empty_true in He as ->.
    apply paths_spec in Hin as (w & -> & Hm & _); [|done].
    by rewrite str_app_nil_r.
  - intros Hm. exists (true && Str.is_empty s, ""). split; [|done].
    apply list_elem_of_In, paths_spec; [done|]. exists s.
    by rewrite str_app_nil_r.
Qed.

Lemma DOMAIN_PATTERN_well_formed : well_formed DOMAIN_PATTERN = true.
Proof. reflexivity. Qed.

Lemma DOMAIN_PATTERN_bol_free : bol_free DOMAIN_PATTERN = true.
Proof. reflexivity. Qed.

Lemma findall_domain_nil s :
  findall DOMAIN_PATTERN s = []
  ↔ ¬ ∃ pre w post, s = pre +:+ w +:+ post ∧ Match DOMAIN_PATTERN true w.
Proof.
  unfold findall.
  rewrite findall_from_nil by apply DOMAIN_PATTERN_well_formed. split.
  - intros Hno (pre & w & post & Hs & Hm). apply (Hno pre w post Hs).
    by apply (Match_flag _ true), Hm.
  - intros Hno pre w post Hs Hm. apply Hno. exists pre, w, post.
    split; [done|]. by eapply Match_flag, Hm.
Qed.

(** C1, amended. Construction fails with [MapperURLInvalidError], whose
    message is 'URL fornecida não é válida.', for every string that has no
    substring matching the domain pattern, whatever [max_depth] and
    [rate_limit]; a string that has one is accepted, also when the string as
    a whole does not match. *)
Theorem init_raises_without_match s md rl :
  (¬ ∃ pre w post, s = pre +:+ w +:+ post ∧ Match DOMAIN_PATTERN true w) →
  Mapper_init s md rl = Raise MapperURLInvalidError
  ∧ str MapperURLInvalidError = "URL fornecida não é válida.".
Proof.
  intros Hno%findall_domain_nil. unfold Mapper_init. by rewrite Hno.
Qed.

End ConstructorFacts.

(** ** A link of the seed page is followed *)

Section FollowFacts.
Context {lib : UrlLib} {world : World}.
Implicit Types (st : state) (url link : string) (depth : Z).

Lemma crawl_discovered_steps url depth st :
  url ∈ all_links st.1 → rtc step st (crawl url depth st).
Proof. apply crawl_at_steps. Qed.

Lemma crawl_loop_steps depth st links :
  rtc step st (foldl (follow crawl depth) st links).
Proof.
  apply (foldl_invariant (rtc step st)); [done|].
  intros a link Ha _. etrans; [exact Ha|].
  apply follow_steps. intros. by apply crawl_discovered_steps.
Qed.

Lemma is_valid_url_domain (self self' : Mapper) url :
  domain self' = domain self →
  _is_valid_url self' url = _is_valid_url self url.
Proof. unfold _is_valid_url. by intros ->. Qed.

(** What holds of a URL once it is discovered, visited and requested keeps
    holding along the steps. *)
Lemma followed_steps url st st' :
  rtc step st st' → followed url st → followed url st'.
Proof.
  intros Hs (Ha & Hv & Hr). split_and!.
  - by eapply steps_all_links_mono.
  - by eapply steps_visited_mono.
  - by eapply steps_trace_mono.
Qed.

(** From a new object with [max_depth >= 1]: a followable link of the seed
    page whose URL is eligible and is not the seed ends up discovered,
    visited and requested, in whatever order the links are gone
    through. *)
Lemma seed_link_followed seed md rl tr link :
  1 ≤ md →
  link ∈ found seed (fresh seed md rl, tr) →
  _is_valid_url (fresh seed md rl) (urljoin seed link) = true →
  urljoin seed link ≠ seed →
  followed (urljoin seed link) (crawl seed 0 (fresh seed md rl, tr)).
Proof.
  intros Hmd Hin Hok Hne.
  set (st := (fresh seed md rl, tr)) in *. set (u := urljoin seed link) in *.
  rewrite crawl_eq.
  replace (0 >? max_depth st.1) with false by (simpl; lia).
  rewrite bool_decide_eq_false_2 by (simpl; set_solver).
  apply list_elem_of_split in Hin as (l1 & l2 & ->).
  rewrite foldl_app. simpl.
  set (a := foldl (follow crawl 0) (visit seed st) l1).
  assert (rtc step (visit seed st) a) as Ha by apply crawl_loop_steps.
  eapply followed_steps; [apply crawl_loop_steps|].
  pose proof (steps_same_config _ _ Ha) as (Hd & Hm & _).
  rewrite visit_fst in Hd, Hm. simpl in Hd, Hm.
  unfold follow. rewrite Hd. fold u.
  rewrite (is_valid_url_domain (fresh seed md rl)) by done.
  rewrite Hok. simpl.
  destruct (decide (u ∈ visited a.1)) as [Hv|Hv].
  - rewrite bool_decide_eq_false_2 by tauto.
    pose proof (steps_visited_discovered _ _ Ha) as Hsub.
    pose proof (steps_visited_requested _ _ u Ha Hv) as Hreq.
    rewrite visit_fst in Hsub, Hreq. simpl in Hsub, Hreq.
    split_and!; [set_solver|done|]. destruct Hreq; [set_solver|done].
  - rewrite bool_decide_eq_true_2 by done.
    set (a' := (all_links_add u a.1, a.2)).
    eapply followed_steps; [apply rtc_once, step_wait|].
    eapply followed_steps.
    { apply crawl_steps; simpl; [lia | done]. }
    split_and!.
    + rewrite visit_fst. simpl. set_solver.
    + rewrite visit_fst. simpl. set_solver.
    + apply visit_request.
Qed.

End FollowFacts.

(** ** On the modelled [urllib.parse] *)

Section UrllibFacts.
Implicit Types (s t h w : string) (c d : ascii) (p q : ascii → bool).

Lemma forallb_app p s t :
  Str.forallb p (s +:+ t) = Str.forallb p s && Str.forallb p t.
Proof.
  induction s as [|c s IH]; [done|]. app_step. simpl.
  by rewrite IH, andb_assoc.
Qed.

Lemma forallb_impl p q s :
  (∀ c, p c = true → q c = true) →
  Str.forallb p s = true → Str.forallb q s = true.
Proof.
  intros Hpq. induction s as [|c s IH]; [done|]. simpl.
  intros [Hc Hs]%andb_true_iff. by rewrite (Hpq c Hc), IH.
Qed.

Lemma take_all s : Str.take (String.length s) s = s.
Proof. induction s as [|c s IH]; [done|]. simpl. by rewrite IH. Qed.

Lemma drop_all s : Str.drop (String.length s) s = "".
Proof. induction s as [|c s IH]; [done|]. done. Qed.

Lemma find_skip c s t :
  Str.forallb (λ d, negb (Ascii.eqb c d)) s = true →
  Str.find c (s +:+ t) = (λ i, String.length s + i)%nat <$> Str.find c t.
Proof.
  induction s as [|d s IH]; simpl.
  { intros _. app_step. by destruct (Str.find c t). }
  intros [Hd Hs]%andb_true_iff. app_step. simpl.
  apply negb_true_iff in Hd. rewrite Hd, (IH Hs).
  by destruct (Str.find c t).
Qed.

Lemma find_none c s :
  Str.forallb (λ d, negb (Ascii.eqb c d)) s = true → Str.find c s = None.
Proof.
  intros Hs. rewrite <- (str_app_nil_r s), find_skip by done. done.
Qed.

Lemma remove_none c s :
  Str.forallb (λ d, negb (Ascii.eqb c d)) s = true → Str.remove c s = s.
Proof.
  induction s as [|d s IH]; [done|]. simpl.
  intros [Hd Hs]%andb_true_iff. apply negb_true_iff in Hd.
  by rewrite Hd, (IH Hs).
Qed.

Lemma rstrip_id chars s :
  Str.forallb (λ d, negb (Str.mem d chars)) s = true →
  Str.rstrip chars s = s.
Proof.
  induction s as [|d s IH]; [done|]. simpl.
  intros [Hd Hs]%andb_true_iff. apply negb_true_iff in Hd.
  rewrite (IH Hs), Hd. by destruct s.
Qed.

Lemma rstrip_app chars s t :
  Str.rstrip chars t ≠ "" →
  Str.rstrip chars (s +:+ t) = s +:+ Str.rstrip chars t.
Proof.
  intros Ht. induction s as [|d s IH]; [done|]. app_step. simpl.
  rewrite IH. destruct (s +:+ Str.rstrip chars t) eqn:Hs; [|done].
  by apply str_app_eq_nil in Hs as [_ ?].
Qed.

(** A host character is none of the characters that [urlsplit] and
    [strip] look for. *)
Lemma host_char_plain c :
  host_char c = true →
  negb (Ascii.eqb "/" c) && negb (Ascii.eqb "?" c) && negb (Ascii.eqb "#" c)
  && negb (Ascii.eqb ";" c) && negb (Ascii.eqb ":" c)
  && negb (Ascii.eqb "009" c) && negb (Ascii.eqb "010" c)
  && negb (Ascii.eqb "013" c) && negb (Str.mem c "/") = true.
Proof. by destruct c as [[] [] [] [] [] [] [] []]. Qed.

Lemma host_no c h :
  Str.forallb host_char h = true →
  Str.mem c "/?#;:"
  || Str.mem c (String "009" (String "010" (String "013" ""))) = true →
  Str.forallb (λ d, negb (Ascii.eqb c d)) h = true.
Proof.
  intros Hh Hc. eapply forallb_impl; [|exact Hh].
  intros d Hd%host_char_plain. simpl in Hc.
  repeat match type of Hc with
         | _ || _ = true => apply orb_true_iff in Hc as [Hc|Hc]
         end; try done;
    apply Ascii.eqb_eq in Hc as ->;
    repeat (apply andb_true_iff in Hd as [Hd ?]); done.
Qed.

Lemma splitnetloc_domain h t :
  Str.forallb host_char h = true → t = "" ∨ t = "/" →
  Urllib._splitnetloc (String "/" (String "/" (h +:+ t))) 2 = (h, t).
Proof.
  intros Hh Ht. unfold Urllib._splitnetloc, Str.find_from.
  cbn [foldl Str.drop].
  rewrite !find_skip by (by apply host_no).
  destruct Ht as [-> | ->]; cbn [Str.find Ascii.eqb Bool.eqb fmap option_fmap option_map].
  - rewrite str_app_nil_r. cbn [String.length Str.take Str.drop].
    by rewrite take_all, drop_all.
  - cbn [String.length]. rewrite str_app_length. cbn [String.length].
    replace (Nat.min (S (S (String.length h + 1))) (2 + (String.length h + 0)))
      with (S (S (String.length h))) by lia.
    cbn [Str.take Str.drop]. by rewrite take_app_length, drop_app_length.
Qed.

Lemma urlsplit_domain sch h t :
  sch = "http" ∨ sch = "https" →
  Str.forallb host_char h = true → t = "" ∨ t = "/" →
  Urllib.urlsplit (sch +:+ "://" +:+ h +:+ t) ""
  = Urllib.mkSplitResult sch h t "" "".
Proof.
  intros Hsch Hh Ht.
  assert (Urllib.remove_unsafe (h +:+ t) = h +:+ t) as HX.
  { unfold Urllib.remove_unsafe.
    assert (∀ c, Str.mem c (String "009" (String "010" (String "013" "")))
                 = true → Str.remove c (h +:+ t) = h +:+ t) as Hrm.
    { intros c Hc. apply remove_none. rewrite forallb_app.
      apply andb_true_iff.
      split; [apply host_no; [done|]; by rewrite Hc, orb_true_r|].
      simpl in Hc.
      repeat match type of Hc with
             | _ || _ = true => apply orb_true_iff in Hc as [Hc|Hc]
             end; try done;
        apply Ascii.eqb_eq in Hc as ->; by destruct Ht as [-> | ->]. }
    by rewrite !Hrm. }
  pose proof (splitnetloc_domain h t Hh Ht) as HN.
  assert (Urllib.split1 "#" t = None ∧ Urllib.split1 "?" t = None) as [H1 H2]
    by (by destruct Ht as [-> | ->]).
  unfold Urllib.urlsplit.
  destruct Hsch as [-> | ->]; app_step.
  - set (U := String "h" _).
    assert (Urllib.lstrip_c0 U = U) as -> by reflexivity.
    assert (Urllib.remove_unsafe U = U) as ->.
    { unfold U, Urllib.remove_unsafe in *. cbn -[String.append].
      by rewrite HX. }
    assert (Str.find ":" U = Some 4%nat) as -> by reflexivity.
    unfold U.
    change (Urllib.remove_unsafe (Urllib.rstrip_c0 (Urllib.lstrip_c0 "")))
      with "".
    cbn -[String.append Urllib._splitnetloc Urllib.split1
           Urllib.isalpha_ascii Str.lower_char].
    change (Urllib.isalpha_ascii "h") with true.
    change (Str.lower_char "h") with "h"%char.
    change (Str.lower_char "t") with "t"%char.
    change (Str.lower_char "p") with "p"%char.
    cbn -[String.append Urllib._splitnetloc Urllib.split1].
    rewrite HN, H1, H2. done.
  - set (U := String "h" _).
    assert (Urllib.lstrip_c0 U = U) as -> by reflexivity.
    assert (Urllib.remove_unsafe U = U) as ->.
    { unfold U, Urllib.remove_unsafe in *. cbn -[String.append].
      by rewrite HX. }
    assert (Str.find ":" U = Some 5%nat) as -> by reflexivity.
    unfold U.
    cbn -[String.append Urllib._splitnetloc Urllib.split1
           Urllib.isalpha_ascii Str.lower_char].
    change (Urllib.isalpha_ascii "h") with true.
    change (Str.lower_char "h") with "h"%char.
    change (Str.lower_char "t") with "t"%char.
    change (Str.lower_char "p") with "p"%char.
    change (Str.lower_char "s") with "s"%char.
    cbn -[String.append Urllib._splitnetloc Urllib.split1].
    rewrite HN, H1, H2. done.
Qed.

Lemma urlparse_domain sch h t :
  sch = "http" ∨ sch = "https" →
  Str.forallb host_char h = true → t = "" ∨ t = "/" →
  Urllib.urlparse (sch +:+ "://" +:+ h +:+ t) ""
  = mkParseResult sch h t "" "" "".
Proof.
  intros Hsch Hh Ht. unfold Urllib.urlparse.
  rewrite urlsplit_domain by done.
  cbn [Urllib.s_scheme Urllib.s_netloc Urllib.s_path Urllib.s_query
         Urllib.s_fragment].
  replace (bool_decide (is_Some (Str.find ";" t))) with false
    by (by destruct Ht as [-> | ->]).
  by rewrite andb_false_r.
Qed.

Lemma urljoin_domain_slash sch h :
  sch = "http" ∨ sch = "https" →
  Str.forallb host_char h = true → h ≠ "" →
  Urllib.urljoin (sch +:+ "://" +:+ h) "/" = (sch +:+ "://" +:+ h) +:+ "/".
Proof.
  intros Hsch Hh Hne. unfold Urllib.urljoin.
  pose proof (urlparse_domain sch h "" Hsch Hh (or_introl eq_refl)) as Hb.
  rewrite str_app_nil_r in Hb. rewrite Hb. clear Hb.
  cbn [scheme netloc path params query fragment].
  destruct h as [|c h]; [done|].
  destruct Hsch as [-> | ->].
  - replace (Urllib.urlparse "/" "http")
      with (mkParseResult "http" "" "/" "" "" "") by (by vm_compute).
    cbn [scheme netloc path params query fragment].
    by vm_compute.
  - replace (Urllib.urlparse "/" "https")
      with (mkParseResult "https" "" "/" "" "" "") by (by vm_compute).
    cbn [scheme netloc path params query fragment].
    by vm_compute.
Qed.

Lemma rstrip_app_nil chars s t :
  Str.rstrip chars t = "" → Str.rstrip chars (s +:+ t) = Str.rstrip chars s.
Proof.
  intros Ht. induction s as [|d s IH]; [done|]. app_step. simpl.
  by rewrite IH.
Qed.

Lemma strip_domain sch h t :
  sch = "http" ∨ sch = "https" →
  Str.forallb host_char h = true → h ≠ "" → t = "" ∨ t = "/" →
  Str.strip "/" (sch +:+ "://" +:+ h +:+ t) = sch +:+ "://" +:+ h.
Proof.
  intros Hsch Hh Hne Ht. unfold Str.strip.
  assert (Str.lstrip "/" (sch +:+ "://" +:+ h +:+ t)
          = sch +:+ "://" +:+ h +:+ t) as ->
    by (by destruct Hsch as [-> | ->]).
  rewrite <- !str_app_assoc.
  rewrite rstrip_app_nil by (by destruct Ht as [-> | ->]).
  assert (Str.rstrip "/" h = h) as Hr.
  { apply rstrip_id. eapply forallb_impl; [|exact Hh].
    intros c Hc%host_char_plain.
    repeat (apply andb_true_iff in Hc as [Hc ?]); done. }
  rewrite rstrip_app; rewrite Hr; done.
Qed.

Lemma Match_Lit s b w : Match (Lit s) b w → w = s.
Proof.
  revert b w. induction s as [|c s IH]; intros b w; simpl; [done|].
  intros (w1 & w2 & -> & -> & ->%IH). done.
Qed.

Lemma Match_Opt r b w : Match (Opt r) b w → w = "" ∨ Match r b w.
Proof.
  intros (n & _ & Hn & Hi). specialize (Hn 1%nat eq_refl).
  destruct n as [|[|n]]; [by left| |lia].
  destruct Hi as (w1 & w2 & -> & H1 & ->). right. by rewrite str_app_nil_r.
Qed.

Lemma iter_alphabet (P : bool → string → Prop) p n b w :
  (∀ b w, P b w → Str.forallb p w = true) →
  iter P n b w → Str.forallb p w = true.
Proof.
  intros HP. revert b w. induction n as [|n IH]; intros b w; simpl.
  { by intros ->. }
  intros (w1 & w2 & -> & H1%HP & H2%IH). by rewrite forallb_app, H1, H2.
Qed.

Lemma Match_alphabet r b w :
  Match r b w → Str.forallb (alphabet r) w = true.
Proof.
  revert b w.
  induction r as [|c|ranges|r1 IH1 r2 IH2|lo hi r1 IH1|]; intros b w; simpl.
  - by intros ->.
  - intros ->. simpl. by rewrite Ascii.eqb_refl.
  - intros (c & Hc & ->). simpl. by rewrite Hc.
  - intros (w1 & w2 & -> & H1%IH1 & H2%IH2). rewrite forallb_app.
    apply andb_true_iff. split.
    + eapply forallb_impl; [|exact H1]. intros c ->. done.
    + eapply forallb_impl; [|exact H2]. intros c ->. by rewrite orb_true_r.
  - intros (n & _ & _ & Hi). eapply iter_alphabet; [|exact Hi]. eauto.
  - by intros [_ ->].
Qed.

(** A match of the domain pattern is a scheme, [://], a host part and
    maybe a slash. *)
Lemma domain_shape m :
  Match DOMAIN_PATTERN true m →
  ∃ sch h t,
    m = sch +:+ "://" +:+ h +:+ t
    ∧ (sch = "http" ∨ sch = "https")
    ∧ Str.forallb host_char h = true ∧ h ≠ ""
    ∧ (t = "" ∨ t = "/").
Proof.
  unfold DOMAIN_PATTERN. intros Hm.
  destruct Hm as (w6 & wg & -> & Hm & Hg).
  destruct Hm as (w5 & wf & -> & Hm & Hf).
  destruct Hm as (w4 & we & -> & Hm & He).
  destruct Hm as (w3 & wd & -> & Hm & Hd).
  destruct Hm as (w2 & wc & -> & Hm & Hc).
  destruct Hm as (wa & wb & -> & Ha & Hb).
  apply Match_Lit in Ha as ->. apply Match_Lit in Hc as ->.
  exists ("http" +:+ wb), (wd +:+ we +:+ wf), wg. split_and!.
  - by rewrite !str_app_assoc.
  - apply Match_Opt in Hb as [-> | ->]; auto.
  - assert (∀ r b w, (∀ c, alphabet r c = true → host_char c = true) →
                     Match r b w → Str.forallb host_char w = true) as Hal.
    { intros r b w Hr Hw%Match_alphabet. by eapply forallb_impl. }
    rewrite !forallb_app. repeat (apply andb_true_iff; split).
    + apply Match_Opt in Hd as [-> | Hd]; [done|].
      eapply Hal; [|exact Hd].
      by intros [[] [] [] [] [] [] [] []].
    + eapply Hal; [|exact He]. by intros [[] [] [] [] [] [] [] []].
    + eapply Hal; [|exact Hf]. by intros [[] [] [] [] [] [] [] []].
  - intros [_ [Hwe _]%str_app_eq_nil]%str_app_eq_nil.
    refine (consumes_sound _ _ _ _ He Hwe). reflexivity.
  - apply Match_Opt in Hg as [-> | ->]; auto.
Qed.
End UrllibFacts.


Section SeedFacts.

Lemma init_domain_shape s md rl self :
  Mapper_init s md rl = Ok self →
  ∃ sch h,
    self = fresh (sch +:+ "://" +:+ h) md rl
    ∧ (sch = "http" ∨ sch = "https")
    ∧ Str.forallb host_char h = true ∧ h ≠ "".
Proof.
  unfold Mapper_init.
  destruct (findall DOMAIN_PATTERN s) as [|m ms] eqn:Hf; [done|].
  intros [= <-].
  apply findall_from_cons in Hf as (pre & post & _ & Hm & _);
    [|apply DOMAIN_PATTERN_well_formed].
  apply (Match_flag _ _ true) in Hm; [|apply DOMAIN_PATTERN_bol_free].
  apply domain_shape in Hm as (sch & h & t & -> & Hsch & Hh & Hne & Ht).
  exists sch, h. by rewrite strip_domain.
Qed.

(** C10. For every object that the constructor returns with
    [max_depth >= 1], in every world where the seed page has a link '/': the
    link resolves to the stored domain followed by a slash, which is another
    string than the stored domain, is eligible and is not visited at the
    start; after [map_web_site] it is discovered, visited and was requested,
    and it is in the returned sequence, in whatever order the links of a
    page are gone through. *)
Theorem seed_rediscovered_by_slash {world : World} s md rl self page :
  Mapper_init s md rl = Ok self →
  1 ≤ md →
  fetch (domain self) = inr page →
  "/" ∈ _find_links page →
  Urllib.urljoin (domain self) "/" = domain self +:+ "/"
  ∧ domain self +:+ "/" ≠ domain self
  ∧ _is_valid_url (lib := urllib) self (domain self +:+ "/") = true
  ∧ (domain self +:+ "/" ∉ visited self)
  ∧ followed (domain self +:+ "/") (map_web_site (lib := urllib) (self, [])).2
  ∧ domain self +:+ "/" ∈ (map_web_site (lib := urllib) (self, [])).1.
Proof.
  intros (sch & h & -> & Hsch & Hh & Hne)%init_domain_shape Hmd Hweb Hlink.
  cbn [domain fresh] in *. set (d := sch +:+ "://" +:+ h) in *.
  assert (Urllib.urljoin d "/" = d +:+ "/") as Hjoin
    by (by apply urljoin_domain_slash).
  assert (d +:+ "/" ≠ d) as Hdiff.
  { intros Heq%(f_equal String.length). rewrite str_app_length in Heq.
    simpl in Heq. lia. }
  assert (_is_valid_url (lib := urllib) (fresh d md rl) (d +:+ "/") = true)
    as Hok.
  { pose proof (urlparse_domain sch h "" Hsch Hh (or_introl eq_refl)) as Hb.
    pose proof (urlparse_domain sch h "/" Hsch Hh (or_intror eq_refl)) as Hs.
    rewrite str_app_nil_r in Hb. fold d in Hb.
    replace (sch +:+ "://" +:+ h +:+ "/") with (d +:+ "/") in Hs
      by (unfold d; by rewrite !str_app_assoc).
    unfold _is_valid_url. cbn [urlparse urllib domain fresh].
    rewrite Hb, Hs. cbn [netloc path]. by rewrite String.eqb_refl. }
  assert (followed (d +:+ "/")
            (crawl (lib := urllib) d 0 (fresh d md rl, []))) as Hf.
  { pose proof (seed_link_followed (lib := urllib) d md rl [] "/") as Hfol.
    cbn [urljoin urllib] in Hfol. rewrite Hjoin in Hfol.
    apply Hfol; [done| |done..].
    unfold found, enter, _get_page.
    rewrite Hweb. apply elem_of_clean_links. eauto. }
  split_and!; [done..|set_solver|exact Hf|].
  unfold map_web_site. cbn [fst snd domain fresh].
  apply elem_of_sorted_set, Hf.
Qed.

End SeedFacts.

Section Examples.

(** C4. [_is_valid_url] accepts a URL exactly when its netloc equals the
    netloc of the stored domain and its path does not end in one of
    [.pdf .jpg .jpeg .png .gif .svg]; the scheme plays no part. For the
    object built from 'http://host.com': 'http://host.com/file.pdf' and
    'https://host2.com' are turned away, 'http://host.com' and
    'https://host.com' are accepted. *)
Theorem is_valid_url_netloc_and_extension :
  (∀ (lib : UrlLib) (self : Mapper) (url : string),
     _is_valid_url self url = true
     ↔ netloc (urlparse url) = netloc (urlparse (domain self))
       ∧ ∀ ext, ext ∈ non_content →
                ¬ ∃ pre, path (urlparse url) = pre +:+ ext)
  ∧ (∀ md rl,
       let self := fresh "http://host.com" md rl in
       Mapper_init "http://host.com" md rl = Ok self
       ∧ _is_valid_url (lib := urllib) self "http://host.com/file.pdf" = false
       ∧ _is_valid_url (lib := urllib) self "https://host2.com" = false
       ∧ _is_valid_url (lib := urllib) self "http://host.com" = true
       ∧ _is_valid_url (lib := urllib) self "https://host.com" = true).
Proof.
  split; [intros; apply is_valid_url_iff|].
  intros md rl. by vm_compute.
Qed.

(** C3, as stated, fails: on [branching_site] the seed links to two
    distinct followable pages, and with [max_depth = 1] three pages are
    visited (the seed, /a, /b) and three links discovered (/a, /b, /c). *)
Lemma branching_site_same_cardinality :
  Mapper_init "http://host.com" 1 0.5 = Ok (fresh "http://host.com" 1 0.5)
  ∧ branching (lib := urllib) (world := world_of branching_site) (fresh "http://host.com" 1 0.5)
  ∧ size (visited
            (map_web_site (lib := urllib) (world := world_of branching_site)
               (fresh "http://host.com" 1 0.5, [])).2.1) = 3%nat
  ∧ size (all_links
            (map_web_site (lib := urllib) (world := world_of branching_site)
               (fresh "http://host.com" 1 0.5, [])).2.1) = 3%nat.
Proof.
  split_and!.
  - by vm_compute.
  - exists "http://host.com", (anchors ["/a"; "/b"]), "/a", "/b".
    split_and!.
    + by vm_compute.
    + apply elem_of_clean_links. split; [|eauto].
      vm_compute. set_solver.
    + apply elem_of_clean_links. split; [|eauto].
      vm_compute. set_solver.
    + by vm_compute.
    + by vm_compute.
    + by vm_compute.
  - by vm_compute.
  - by vm_compute.
Qed.

(** C1, as stated, fails: 'http://google.com.' does not match the domain
    pattern as a whole, and construction succeeds on it. *)
Lemma unanchored_input_accepted :
  ¬ Match DOMAIN_PATTERN true "http://google.com."
  ∧ Mapper_init "http://google.com." 2 0.5
    = Ok (fresh "http://google.com" 2 0.5).
Proof.
  split; [|by vm_compute].
  intros Hm%re_fullmatch_spec; [|reflexivity]. by vm_compute in Hm.
Qed.

(** C8, as stated, fails: of a link given twice one entry remains. *)
Lemma repeated_link_collapses :
  (∀ link, link ∈ ["/a"; "/a"] → ∃ rest, link = String "/" rest)
  ∧ length (_clean_links (world := world_of dead_site) ["/a"; "/a"]) = 1%nat
  ∧ length ["/a"; "/a"] = 2%nat.
Proof.
  split_and!; [|by vm_compute..].
  intros link Hin.
  repeat (apply elem_of_cons in Hin as [->|Hin]; [by eauto|]).
  by apply elem_of_nil in Hin.
Qed.

(** C7, as stated, fails: after a [crawl] from another page, whose page
    links to ['//'], the seed is in [all_links], and [map_web_site] returns
    it. *)
Lemma seed_returned_after_crawl :
  Mapper_init "http://host.com" 2 0.5 = Ok (fresh "http://host.com" 2 0.5)
  ∧ let st := crawl (lib := urllib) (world := world_of back_link_site)
                "http://host.com/b" 0 (fresh "http://host.com" 2 0.5, []) in
    domain st.1 = "http://host.com"
    ∧ domain st.1
      ∈ all_links ((map_web_site (lib := urllib)
                      (world := world_of back_link_site) st).2).1
    ∧ (map_web_site (lib := urllib) (world := world_of back_link_site) st).1
      = ["http://host.com"].
Proof.
  split; [by vm_compute|]. split; [by vm_compute|]. split; [|by vm_compute].
  refine (bool_decide_unpack _ _). vm_compute. exact I.
Qed.

End Examples.

(** ** More on the crawler *)

Section CrawlFrame.
Context {lib : UrlLib} {world : World}.
Implicit Types (st : state) (url link : string) (depth : Z) (tr : list effect).

Lemma found_links_of url st : found url st = links_of url.
Proof.
  unfold found, links_of, page_of, enter, _get_page.
  by destruct (fetch url).
Qed.

Lemma visit_snd url st :
  (visit url st).2
  = st.2 ++ [Log ("Visitando: [blue]" +:+ url +:+ "[/blue]"); Request url]
         ++ option_list (Print <$> error_line url).
Proof.
  unfold visit, enter, _get_page, emit, error_line.
  destruct (fetch url); simpl; by rewrite <- !(assoc_L (++)).
Qed.

Lemma step_trace_prefix st st' : step st st' → ∃ tr, st'.2 = st.2 ++ tr.
Proof.
  intros [u st0 _ _|u st0 _ _|st0].
  - apply visit_trace.
  - exists []. by rewrite app_nil_r.
  - by eexists.
Qed.

Lemma steps_trace_prefix st st' : rtc step st st' → ∃ tr, st'.2 = st.2 ++ tr.
Proof.
  induction 1 as [st|st st1 st2 Hstep _ [tr2 IH]].
  - exists []. by rewrite app_nil_r.
  - destruct (step_trace_prefix _ _ Hstep) as [tr1 H1].
    exists (tr1 ++ tr2). by rewrite IH, H1, (assoc_L (++)).
Qed.

(** [crawl] does nothing, or visits its URL and goes on by steps. *)
Lemma crawl_cases url depth st :
  crawl url depth st = st
  ∨ (depth ≤ max_depth st.1 ∧ (url ∉ visited st.1)
     ∧ rtc step (visit url st) (crawl url depth st)).
Proof.
  destruct (decide (depth > max_depth st.1 ∨ url ∈ visited st.1)) as [Hs|Hs].
  - left. by apply crawl_skip.
  - right. split_and!; [lia|tauto|]. apply crawl_steps; [lia|tauto].
Qed.

(** X4. A call of [crawl] only adds: the stored domain, [max_depth] and
    [rate_limit] are kept, [visited] and [all_links] lose no member, and the
    effects so far are a prefix of the effects afterwards. *)
Theorem crawl_only_adds url depth st :
  same_config st (crawl url depth st)
  ∧ visited st.1 ⊆ visited (crawl url depth st).1
  ∧ all_links st.1 ⊆ all_links (crawl url depth st).1
  ∧ ∃ tr, (crawl url depth st).2 = st.2 ++ tr.
Proof.
  destruct (crawl_cases url depth st) as [->|(_ & _ & Hs)].
  { split; [by unfold same_config|]. split; [done|]. split; [done|].
    exists []. by rewrite app_nil_r. }
  pose proof (steps_same_config _ _ Hs) as Hc.
  pose proof (steps_visited_mono _ _ Hs) as Hv.
  pose proof (steps_all_links_mono _ _ Hs) as Ha.
  destruct (steps_trace_prefix _ _ Hs) as [tr2 Ht].
  destruct (visit_trace url st) as [tr1 Ht1].
  unfold same_config in Hc. rewrite visit_fst in Hc, Hv, Ha. simpl in *.
  split; [exact Hc|]. split; [set_solver|]. split; [done|].
  exists (tr1 ++ tr2). by rewrite Ht, Ht1, (assoc_L (++)).
Qed.

Lemma crawl_visits url depth st :
  depth ≤ max_depth st.1 → url ∈ visited (crawl url depth st).1.
Proof.
  intros Hd. destruct (crawl_cases url depth st) as [Heq|(_ & Hn & Hs)].
  - destruct (decide (url ∈ visited st.1)) as [Hv|Hv]; [by rewrite Heq|].
    pose proof (crawl_steps url depth st Hd Hv) as Hs.
    apply (steps_visited_mono _ _ Hs). rewrite visit_fst. set_solver.
  - apply (steps_visited_mono _ _ Hs). rewrite visit_fst. set_solver.
Qed.

Lemma crawl_twice url depth st :
  crawl url depth (crawl url depth st) = crawl url depth st.
Proof.
  destruct (decide (depth ≤ max_depth st.1)) as [Hd|Hd].
  - apply crawl_skip. right. by apply crawl_visits.
  - rewrite (crawl_skip url depth st) by (left; lia).
    apply crawl_skip. left. lia.
Qed.

(** X5. A page is crawled once: within [max_depth] the URL is visited after
    [crawl], a call on a visited URL changes nothing, and so a second call
    with the same arguments changes nothing. *)
Theorem crawl_once url depth st :
  (depth ≤ max_depth st.1 → url ∈ visited (crawl url depth st).1)
  ∧ (url ∈ visited st.1 → crawl url depth st = st)
  ∧ crawl url depth (crawl url depth st) = crawl url depth st.
Proof.
  split_and!.
  - apply crawl_visits.
  - intros Hv. apply crawl_skip. by right.
  - apply crawl_twice.
Qed.

(** X6. A second [map_web_site] returns the same sequence and changes
    nothing: no page is requested again. *)
Theorem map_web_site_twice st :
  map_web_site (map_web_site st).2 = map_web_site st.
Proof.
  unfold map_web_site. simpl.
  assert (domain (crawl (domain st.1) 0 st).1 = domain st.1) as ->
    by apply crawl_at_same_config.
  by rewrite crawl_twice.
Qed.

(** *** Requests *)

Lemma requests_app tr1 tr2 : requests (tr1 ++ tr2) = requests tr1 ++ requests tr2.
Proof. apply omap_app. Qed.

Lemma requests_visit url st :
  requests (visit url st).2 = requests st.2 ++ [url].
Proof.
  rewrite visit_snd, !requests_app. simpl.
  destruct (error_line url); simpl; by rewrite ?app_nil_r.
Qed.

Lemma visit_requested_once url st :
  url ∉ visited st.1 → requested_once st → requested_once (visit url st).
Proof.
  intros Hn [Hnd Hiff]. unfold requested_once.
  rewrite requests_visit, visit_fst. simpl. split.
  - apply NoDup_app. split_and!; [done| |apply NoDup_singleton].
    intros u Hu ->%list_elem_of_singleton. by apply Hn, Hiff.
  - intros u. rewrite elem_of_app, list_elem_of_singleton, Hiff. set_solver.
Qed.

Lemma steps_requested_once st st' :
  rtc step st st' → requested_once st → requested_once st'.
Proof.
  induction 1 as [st|st st1 st2 Hstep _ IH]; [done|].
  intros Hr. apply IH. destruct Hstep as [u st Hnv _|u st _ _|st].
  - by apply visit_requested_once.
  - exact Hr.
  - destruct Hr as [Hnd Hiff]. unfold requested_once, _rate_limit_wait, emit.
    simpl. rewrite requests_app. simpl. by rewrite app_nil_r.
Qed.

End CrawlFrame.

Section CrawlEffects.
Context {lib : UrlLib} {world : World}.
Implicit Types (st : state) (url link : string) (depth : Z) (tr : list effect).

(** X7. Each page is requested once: when the requests so far are the
    visited pages, each once (as in a new object without effects), they
    still are after [crawl]. *)
Theorem crawl_requests_each_page_once url depth st :
  requested_once st → requested_once (crawl url depth st).
Proof.
  intros Hr. destruct (crawl_cases url depth st) as [->|(_ & Hn & Hs)]; [done|].
  eapply steps_requested_once; [exact Hs|]. by apply visit_requested_once.
Qed.

(** *** Lines and waits *)

Lemma well_logged_app q tr1 tr2 :
  well_logged q tr1 →
  log_lines tr2
  = (λ url, "Visitando: [blue]" +:+ url +:+ "[/blue]") <$> requests tr2 →
  print_lines tr2 = omap error_line (requests tr2) →
  Forall (λ q', q' = q) (sleeps tr2) →
  well_logged q (tr1 ++ tr2).
Proof.
  intros (Hl & Hp & Hs) Hl2 Hp2 Hs2. unfold well_logged, log_lines,
    print_lines, sleeps, requests in *.
  rewrite !omap_app, fmap_app, Hl, Hp, Hl2, Hp2.
  split_and!; [done..|]. by apply Forall_app.
Qed.

Lemma step_well_logged st st' :
  step st st' →
  well_logged (rate_limit st.1) st.2 → well_logged (rate_limit st.1) st'.2.
Proof.
  intros [u st0 _ _|u st0 _ _|st0] Hw.
  - rewrite visit_snd. apply well_logged_app; [done|..].
    + by destruct (error_line u).
    + destruct (error_line u) eqn:He; cbn -[error_line]; by rewrite He.
    + destruct (error_line u); simpl; constructor.
  - done.
  - unfold _rate_limit_wait, emit. simpl.
    apply well_logged_app; [done..|]. by repeat constructor.
Qed.

Lemma steps_well_logged st st' :
  rtc step st st' →
  well_logged (rate_limit st.1) st.2 → well_logged (rate_limit st.1) st'.2.
Proof.
  induction 1 as [st|st st1 st2 Hstep _ IH]; [done|].
  intros Hw. destruct (step_same_config _ _ Hstep) as (_ & _ & Hr).
  rewrite <- Hr. apply IH. rewrite Hr. by apply step_well_logged.
Qed.

(** X8. The effects of [crawl] are those of its visits and waits: it logs
    one 'Visitando' line per request, in the order of the requests, prints
    one error line per request that fails, and every wait lasts
    [rate_limit]. *)
Theorem crawl_well_logged url depth st :
  well_logged (rate_limit st.1) st.2 →
  well_logged (rate_limit st.1) (crawl url depth st).2.
Proof.
  intros Hw. destruct (crawl_cases url depth st) as [->|(_ & _ & Hs)]; [done|].
  apply steps_well_logged in Hs; rewrite visit_fst in *; [done|]. simpl.
  rewrite visit_snd. apply well_logged_app; [done|..].
  - by destruct (error_line url).
  - destruct (error_line url) eqn:He; cbn -[error_line]; by rewrite He.
  - destruct (error_line url); simpl; constructor.
Qed.

End CrawlEffects.

(** ** What is discovered *)

Section Discovery.
Context {lib : UrlLib} {world : World}.
Implicit Types (st : state) (url link page : string) (depth : Z) (n : nat).

Lemma foldl_invariant_prefix {A B} (P : list B → A → Prop) (f : A → B → A)
    (l : list B) a :
  P [] a → (∀ pre x a, P pre a → P (pre ++ [x]) (f a x)) → P l (foldl f a l).
Proof.
  intros Ha Hf. cut (∀ pre a, P pre a → P (pre ++ l) (foldl f a l)).
  { intros Hc. by apply (Hc []). }
  induction l as [|x l IH]; intros pre a' Hp; simpl.
  - by rewrite app_nil_r.
  - rewrite (cons_middle x pre l), (assoc_L (++)). apply IH. by apply Hf.
Qed.

Lemma link_of_page_domain (self self' : Mapper) page url :
  domain self' = domain self →
  link_of_page self page url → link_of_page self' page url.
Proof.
  intros Hd (link & Hl & -> & Hok). exists link.
  rewrite Hd, (is_valid_url_domain self) by done. done.
Qed.

(** Every URL added to [all_links] is what an eligible link of a page
    visited by this call resolves to. *)
Lemma crawl_at_sound n url depth st u :
  u ∈ all_links (crawl_at n url depth st).1 →
  u ∈ all_links st.1
  ∨ ∃ page, page ∈ visited (crawl_at n url depth st).1
            ∧ (page ∉ visited st.1) ∧ link_of_page st.1 page u.
Proof.
  revert url depth st u. induction n as [|n IH]; intros url depth st u; [by left|].
  rewrite crawl_at_S.
  destruct (depth >? max_depth st.1); [by left|].
  destruct (bool_decide (url ∈ visited st.1)) eqn:Hv; [by left|].
  apply bool_decide_eq_false in Hv. revert u.
  apply (foldl_invariant
           (λ a, rtc step (visit url st) a
                 ∧ ∀ u, u ∈ all_links a.1 →
                        u ∈ all_links st.1
                        ∨ ∃ page, page ∈ visited a.1 ∧ (page ∉ visited st.1)
                                  ∧ link_of_page st.1 page u)).
  { split; [done|]. intros u. rewrite visit_fst. by left. }
  intros a link [Ha Hinv] Hlink.
  assert (rtc step a (follow (crawl_at n) depth a link)) as Hstep
    by (apply follow_steps; intros; by apply crawl_at_steps).
  split; [by etrans|].
  pose proof (steps_same_config _ _ Ha) as (Hd & _ & _).
  rewrite visit_fst in Hd. simpl in Hd.
  pose proof (steps_visited_mono _ _ Ha) as Hmono.
  rewrite visit_fst in Hmono. simpl in Hmono.
  revert Hstep. unfold follow.
  destruct (_is_valid_url a.1 (urljoin (domain a.1) link)
            && bool_decide (urljoin (domain a.1) link ∉ visited a.1)) eqn:Hc;
    [|by intros _].
  apply andb_true_iff in Hc as [Hok Hnv%bool_decide_eq_true].
  set (u0 := urljoin (domain a.1) link) in *.
  set (a1 := (all_links_add u0 a.1, a.2)).
  intros Hstep u Hu. simpl in Hu.
  apply IH in Hu as [Hu|(page & Hp & Hnp & Hlp)].
  - simpl in Hu. apply elem_of_union in Hu as [->%elem_of_singleton|Hu].
    + right. exists url. split_and!; [|done|].
      * apply (steps_visited_mono _ _ Hstep). apply Hmono. set_solver.
      * exists link. rewrite found_links_of in Hlink. unfold u0.
        rewrite Hd. split_and!; [done..|].
        rewrite <- Hd. by rewrite (is_valid_url_domain a.1 st.1).
    + destruct (Hinv u Hu) as [?|(page & Hp & Hnp & Hlp)]; [by left|right].
      exists page. split_and!; [|done..].
      by apply (steps_visited_mono _ _ Hstep).
  - right. exists page. simpl in Hnp. split_and!; [done| |].
    + intros Hin. apply Hnp, Hmono. set_solver.
    + eapply link_of_page_domain; [|exact Hlp]. done.
Qed.

(** X9. What [crawl] discovers comes from the pages it visits: a member of
    [all_links] after the call was one before, or is what an eligible link
    (beginning with a slash, of a page visited by this call) resolves to
    against the stored domain. *)
Theorem crawl_discovers_links_of_visited url depth st u :
  u ∈ all_links (crawl url depth st).1 →
  u ∈ all_links st.1
  ∨ ∃ page link,
      page ∈ visited (crawl url depth st).1 ∧ (page ∉ visited st.1)
      ∧ link ∈ _find_links (page_of page)
      ∧ (∃ rest, link = String "/" rest)
      ∧ u = urljoin (domain st.1) link
      ∧ _is_valid_url st.1 u = true.
Proof.
  intros [?|(page & Hp & Hnp & link & Hl & -> & Hok)]%crawl_at_sound;
    [by left|right].
  apply elem_of_clean_links in Hl as [Hl Hs].
  exists page, link. by split_and!.
Qed.

(** *** Closure under the links of visited pages *)

Lemma closed_in_mono dom page st st' :
  domain st'.1 = domain st.1 →
  all_links st.1 ⊆ all_links st'.1 → visited st.1 ⊆ visited st'.1 →
  closed_in dom page st → closed_in dom page st'.
Proof.
  intros Hd Ha Hv Hc link Hl Hok.
  rewrite (is_valid_url_domain st.1) in Hok by done.
  specialize (Hc link Hl Hok). set_solver.
Qed.

Lemma closed_in_steps dom page st st' :
  rtc step st st' → closed_in dom page st → closed_in dom page st'.
Proof.
  intros Hs. apply closed_in_mono.
  - by destruct (steps_same_config _ _ Hs).
  - by apply steps_all_links_mono.
  - by apply steps_visited_mono.
Qed.

Lemma crawl_at_closed n url depth st page :
  page ∈ visited (crawl_at n url depth st).1 → page ∉ visited st.1 →
  closed_in (domain st.1) page (crawl_at n url depth st).
Proof.
  revert url depth st page.
  induction n as [|n IH]; intros url depth st page; [done|].
  rewrite crawl_at_S.
  destruct (depth >? max_depth st.1); [done|].
  destruct (bool_decide (url ∈ visited st.1)) eqn:Hv; [done|].
  apply bool_decide_eq_false in Hv.
  set (dom := domain st.1). set (st1 := visit url st).
  assert (∀ a, rtc step st1 a → domain a.1 = dom) as Hdom.
  { intros a Ha. destruct (steps_same_config _ _ Ha) as (Hda & _).
    rewrite Hda. unfold st1. by rewrite visit_fst. }
  pose proof (foldl_invariant_prefix
    (λ pre a,
       rtc step st1 a
       ∧ (∀ p, p ∈ visited a.1 → p ∉ visited st1.1 → closed_in dom p a)
       ∧ (∀ link, link ∈ pre → _is_valid_url a.1 (urljoin dom link) = true →
                  urljoin dom link ∈ all_links a.1 ∪ visited a.1))
    (follow (crawl_at n) depth) (found url st) st1) as Hfold.
  destruct Hfold as (Hs & Hcl & Hlinks).
  { split_and!; [done|done|]. intros link []%elem_of_nil. }
  { clear page. intros pre link a (Ha & Hcl & Hpre).
    assert (rtc step a (follow (crawl_at n) depth a link)) as Hstep
      by (apply follow_steps; intros; by apply crawl_at_steps).
    split; [by etrans|].
    pose proof (Hdom a Ha) as Hd.
    revert Hstep. unfold follow. rewrite Hd.
    destruct (_is_valid_url a.1 (urljoin dom link)
              && bool_decide (urljoin dom link ∉ visited a.1)) eqn:Hc.
    - apply andb_true_iff in Hc as [Hok Hnv%bool_decide_eq_true].
      set (a1 := (all_links_add (urljoin dom link) a.1, a.2)).
      set (a2 := crawl_at n (urljoin dom link) (depth + 1) a1).
      intros Hstep.
      assert (rtc step a a1) as Ha1 by (by apply rtc_once, step_discover).
      assert (rtc step a1 a2) as Ha2
        by (apply crawl_at_steps; simpl; set_solver).
      assert (rtc step a2 (_rate_limit_wait a2)) as Ha3
        by apply rtc_once, step_wait.
      split.
      + intros p Hp Hnp. simpl in Hp.
        destruct (decide (p ∈ visited a.1)) as [Hpa|Hpa].
        * eapply closed_in_steps; [exact Hstep|]. by apply Hcl.
        * eapply closed_in_steps; [exact Ha3|].
          replace dom with (domain a1.1) by (simpl; done).
          by apply IH.
      + intros l [Hl| ->%list_elem_of_singleton]%elem_of_app Hok'.
        * assert (rtc step st1 (_rate_limit_wait a2)) as Hall by (by etrans).
          rewrite (is_valid_url_domain a.1) in Hok'
            by (by rewrite (Hdom _ Hall), Hd).
          pose proof (steps_all_links_mono _ _ Hstep).
          pose proof (steps_visited_mono _ _ Hstep).
          specialize (Hpre l Hl Hok'). set_solver.
        * assert (rtc step a1 (_rate_limit_wait a2)) as Hall by (by etrans).
          pose proof (steps_all_links_mono _ _ Hall).
          simpl in *. set_solver.
    - intros _. split; [done|].
      intros l [Hl| ->%list_elem_of_singleton]%elem_of_app Hok'; [by apply Hpre|].
      rewrite Hok' in Hc. simpl in Hc.
      apply bool_decide_eq_false in Hc. apply elem_of_union. right.
      by apply dec_stable. }
  intros Hp Hnp.
  destruct (decide (page = url)) as [->|Hne].
  - intros link Hl Hok. rewrite <- found_links_of with (st := st) in Hl.
    by apply Hlinks.
  - apply Hcl; [done|]. unfold st1. rewrite visit_fst. simpl. set_solver.
Qed.

(** X10. [crawl] leaves no eligible link of a page it visited behind: for
    each page visited by the call, what an eligible link of the page
    resolves to is in [all_links] or in [visited] afterwards. *)
Theorem crawl_closed_under_links url depth st page link :
  page ∈ visited (crawl url depth st).1 → page ∉ visited st.1 →
  link ∈ _find_links (page_of page) → (∃ rest, link = String "/" rest) →
  _is_valid_url st.1 (urljoin (domain st.1) link) = true →
  urljoin (domain st.1) link
  ∈ all_links (crawl url depth st).1 ∪ visited (crawl url depth st).1.
Proof.
  intros Hp Hnp Hl Hs Hok.
  apply (crawl_at_closed _ url depth st page Hp Hnp link).
  - apply elem_of_clean_links. by split.
  - rewrite (is_valid_url_domain st.1); [done|]. apply crawl_at_same_config.
Qed.

End Discovery.

Section DepthBound.
Context {lib : UrlLib} {world : World}.
Implicit Types (st : state) (url link page : string) (depth : Z) (n : nat).

Lemma crawl_last_level_visited url st :
  url ∉ visited st.1 →
  visited (crawl url (max_depth st.1) st).1 = {[url]} ∪ visited st.1
  ∧ requests (crawl url (max_depth st.1) st).2 = requests st.2 ++ [url].
Proof.
  intros Hv. rewrite crawl_eq.
  replace (max_depth st.1 >? max_depth st.1) with false by lia.
  rewrite bool_decide_eq_false_2 by done.
  rewrite <- (requests_visit url st).
  replace ({[url]} ∪ visited st.1) with (visited (visit url st).1)
    by (by rewrite visit_fst).
  apply (foldl_invariant
           (λ a, max_depth a.1 = max_depth st.1
                 ∧ visited a.1 = visited (visit url st).1
                 ∧ requests a.2 = requests (visit url st).2)).
  { by rewrite visit_fst. }
  intros a link (Hm & Hva & Hra) _. unfold follow.
  destruct (_is_valid_url _ _ && _); [|done].
  rewrite crawl_skip by (left; simpl; lia).
  unfold _rate_limit_wait, emit. simpl. rewrite requests_app. simpl.
  by rewrite app_nil_r.
Qed.

(** X11. At the depth bound a page is visited and its links are discovered
    but not followed: [crawl] at [depth = max_depth] on a URL not yet visited
    adds that URL alone to [visited], requests it alone, and adds to
    [all_links] exactly what the eligible links of its page resolve to,
    those already visited and the URL itself left out. *)
Theorem crawl_at_depth_bound url st :
  url ∉ visited st.1 →
  visited (crawl url (max_depth st.1) st).1 = {[url]} ∪ visited st.1
  ∧ requests (crawl url (max_depth st.1) st).2 = requests st.2 ++ [url]
  ∧ ∀ u, u ∈ all_links (crawl url (max_depth st.1) st).1
         ↔ u ∈ all_links st.1
           ∨ (u ≠ url ∧ (u ∉ visited st.1) ∧ link_of_page st.1 url u).
Proof.
  intros Hv. destruct (crawl_last_level_visited url st Hv) as [Hvis Hreq].
  split; [done|]. split; [done|]. intros u.
  pose proof (crawl_steps url (max_depth st.1) st (Z.le_refl _) Hv) as Hs.
  split.
  - intros Hu. destruct (decide (u ∈ all_links st.1)) as [?|Hnu]; [by left|].
    right.
    assert (u ∉ visited (visit url st).1) as Hnv.
    { intros Hin.
      by apply (steps_visited_not_discovered _ _ u Hs Hin);
        rewrite ?visit_fst. }
    rewrite visit_fst in Hnv. simpl in Hnv.
    apply crawl_at_sound in Hu as [?|(page & Hp & Hnp & Hl)]; [done|].
    fold (crawl url (max_depth st.1) st) in Hp. rewrite Hvis in Hp.
    assert (page = url) as -> by set_solver.
    split_and!; [set_solver|set_solver|done].
  - intros [Hu|(Hne & Hnv & link & Hl & -> & Hok)].
    + apply (steps_all_links_mono _ _ Hs). by rewrite visit_fst.
    + assert (urljoin (domain st.1) link
              ∈ all_links (crawl url (max_depth st.1) st).1
                ∪ visited (crawl url (max_depth st.1) st).1) as Hin.
      { refine (crawl_at_closed _ url (max_depth st.1) st url _ Hv link Hl _).
        - fold (crawl url (max_depth st.1) st). rewrite Hvis. set_solver.
        - rewrite (is_valid_url_domain st.1); [done|].
          apply crawl_at_same_config. }
      rewrite Hvis in Hin. set_solver.
Qed.

(** X13. What [map_web_site] returns for a new object stays on the site:
    every URL of the result has the netloc of the seed, a path that ends in
    none of the non-content extensions, and is not the seed. *)
Theorem map_web_site_stays_on_site seed md rl tr u :
  u ∈ (map_web_site (fresh seed md rl, tr)).1 →
  netloc (urlparse u) = netloc (urlparse seed)
  ∧ (∀ ext, ext ∈ non_content → ¬ ∃ pre, path (urlparse u) = pre +:+ ext)
  ∧ u ≠ seed.
Proof.
  unfold map_web_site. cbn [fst snd domain fresh].
  intros Hu%elem_of_sorted_set.
  assert (_is_valid_url (fresh seed md rl) u = true) as Hok.
  { apply crawl_at_sound in Hu as [Hu|(page & _ & _ & link & _ & _ & Hok)];
      [|done]. by apply not_elem_of_empty in Hu. }
  apply is_valid_url_iff in Hok as [Hn He]. split_and!; [done..|].
  intros ->.
  destruct (crawl_cases seed 0 (fresh seed md rl, tr)) as [Heq|(_ & _ & Hs)].
  - rewrite Heq in Hu. by apply not_elem_of_empty in Hu.
  - revert Hu. apply (steps_visited_not_discovered _ _ seed Hs);
      rewrite visit_fst; simpl; set_solver.
Qed.

End DepthBound.

(** ** More on link cleaning and the constructor *)

Section MoreLinkFacts.
Context {world : World}.

(** X3. [_clean_links] keeps the links that begin with a slash, each once:
    a string is in the result exactly when it is in the input and begins
    with '/'; empty strings and absolute URLs are dropped, and a list
    without a link beginning with '/' is cleaned to the empty list. *)
Theorem clean_links_keeps_slash_links (links : list string) :
  (∀ link, link ∈ _clean_links links
           ↔ link ∈ links ∧ ∃ rest, link = String "/" rest)
  ∧ NoDup (_clean_links links)
  ∧ ((∀ link, link ∈ links → ¬ ∃ rest, link = String "/" rest) →
     _clean_links links = []).
Proof.
  split_and!.
  - apply elem_of_clean_links.
  - apply NoDup_set_order.
  - intros Hno. apply elem_of_nil_inv. intros link [Hl Hs]%elem_of_clean_links.
    by apply (Hno link).
Qed.

End MoreLinkFacts.

Section MoreConstructorFacts.

(** X1. What the constructor returns: an object with the given [max_depth]
    and [rate_limit] and empty sets, whose stored domain occurs in the
    input, is 'http' or 'https', '://' and a non-empty host of characters
    [-a-zA-Z0-9.], and has no slash at its ends. *)
Theorem init_object s md rl self :
  Mapper_init s md rl = Ok self →
  max_depth self = md ∧ rate_limit self = rl
  ∧ visited self = ∅ ∧ all_links self = ∅
  ∧ (∃ pre post, s = pre +:+ domain self +:+ post)
  ∧ (∃ sch h, domain self = sch +:+ "://" +:+ h
              ∧ (sch = "http" ∨ sch = "https")
              ∧ Str.forallb host_char h = true ∧ h ≠ "")
  ∧ Str.strip "/" (domain self) = domain self.
Proof.
  unfold Mapper_init.
  destruct (findall DOMAIN_PATTERN s) as [|m ms] eqn:Hf; [done|].
  intros [= <-]. cbn [max_depth rate_limit visited all_links domain].
  apply findall_from_cons in Hf as (pre & post & -> & Hm & _);
    [|apply DOMAIN_PATTERN_well_formed].
  apply (Match_flag _ _ true) in Hm; [|apply DOMAIN_PATTERN_bol_free].
  apply domain_shape in Hm as (sch & h & t & -> & Hsch & Hh & Hne & Ht).
  rewrite strip_domain by done. split_and!; [done..| | |].
  - exists pre, (t +:+ post). by rewrite !str_app_assoc.
  - eauto 10.
  - rewrite <- (str_app_nil_r h) at 1. rewrite strip_domain; auto.
Qed.

(** X12. Eligibility does not look at the scheme: for every object that the
    constructor returns, with [urllib.parse] as modelled, the stored domain
    under 'http' and under 'https', with or without a final slash, is
    eligible. *)
Theorem constructed_domain_eligible_under_both_schemes s md rl self :
  Mapper_init s md rl = Ok self →
  ∃ sch h,
    domain self = sch +:+ "://" +:+ h
    ∧ ∀ sch' t, sch' = "http" ∨ sch' = "https" → t = "" ∨ t = "/" →
                _is_valid_url (lib := urllib) self (sch' +:+ "://" +:+ h +:+ t)
                = true.
Proof.
  intros (sch & h & -> & Hsch & Hh & Hne)%init_domain_shape.
  exists sch, h. split; [done|]. intros sch' t Hsch' Ht.
  pose proof (urlparse_domain sch h "" Hsch Hh (or_introl eq_refl)) as Hb.
  pose proof (urlparse_domain sch' h t Hsch' Hh Ht) as Hu.
  rewrite str_app_nil_r in Hb.
  unfold _is_valid_url. cbn [urlparse urllib domain fresh].
  rewrite Hb, Hu. cbn [netloc path]. rewrite String.eqb_refl.
  by destruct Ht as [-> | ->].
Qed.

End MoreConstructorFacts.

Section OnlyTheSite.
Context {lib : UrlLib} {world : World}.

(** X14. A new object requests nothing off the site: every URL requested
    during [map_web_site] is the seed or an eligible URL, with the netloc of
    the seed and a path that ends in none of the non-content extensions. *)
Theorem map_web_site_requests_on_site seed md rl u :
  u ∈ requests (map_web_site (fresh seed md rl, [])).2.2 →
  u = seed
  ∨ (netloc (urlparse u) = netloc (urlparse seed)
     ∧ ∀ ext, ext ∈ non_content → ¬ ∃ pre, path (urlparse u) = pre +:+ ext).
Proof.
  unfold map_web_site. cbn [fst snd domain fresh].
  set (st := (fresh seed md rl, [])). intros Hu.
  assert (requested_once st) as Hr0.
  { split; [constructor|]. intros x. simpl. set_solver. }
  destruct (crawl_cases seed 0 st) as [Heq|(_ & Hn & Hs)].
  { rewrite Heq in Hu. by apply elem_of_nil in Hu. }
  pose proof (steps_requested_once _ _ Hs (visit_requested_once _ _ Hn Hr0))
    as [_ Hiff].
  apply Hiff in Hu.
  apply (steps_visited_discovered _ _ Hs) in Hu.
  rewrite visit_fst in Hu. simpl in Hu.
  apply elem_of_union in Hu as [Hu|Hu]; [left; set_solver|right].
  apply is_valid_url_iff with (self := fresh seed md rl).
  apply crawl_at_sound in Hu as [Hu|(page & _ & _ & link & _ & _ & Hok)];
    [|done].
  by apply not_elem_of_empty in Hu.
Qed.

End OnlyTheSite.

(** ** A whole match is what the constructor keeps *)

Ltac app_step_in H :=
  repeat match type of H with
    | context [String ?c ?s +:+ ?t] =>
        change (String c s +:+ t) with (String c (s +:+ t)) in H
    | context [EmptyString +:+ ?t] => change (EmptyString +:+ t) with t in H
    end.

Section WholeMatch.
Implicit Types (r : regex) (b : bool) (s w g u rest : string) (x y : cfg).

Local Abbreviation host_class :=
  (Cls [("-", "-"); ("a", "z"); ("A", "Z"); ("0", "9")]%char).
Local Abbreviation letter_class := (Cls [("a", "z"); ("A", "Z")]%char).
Local Abbreviation group := (Chr "." ⋅ Rep 2 (Some 6%nat) letter_class)%re.
Local Abbreviation www := (Lit "www" ⋅ Chr ".")%re.
Local Abbreviation scheme := (Lit "http" ⋅ Opt (Chr "s") ⋅ Lit "://")%re.
Local Abbreviation host_tail :=
  (Rep 1 (Some 63%nat) host_class ⋅ Plus group ⋅ Opt (Chr "/"))%re.

Lemma paths_Cat r1 r2 x : paths (r1 ⋅ r2) x = paths r1 x ≫= paths r2.
Proof. done. Qed.

Lemma paths_Opt r x : paths (Opt r) x = paths r x ++ [x].
Proof.
  unfold Opt. cbn [paths from_option id rep pred]. f_equal.
  induction (paths r x) as [|y l IH]; [done|].
  rewrite bind_cons, IH. done.
Qed.

Lemma paths_Cat_head r1 r2 x y l1 z l2 :
  paths r1 x = y :: l1 → paths r2 y = z :: l2 →
  paths (r1 ⋅ r2) x = z :: (l2 ++ (l1 ≫= paths r2)).
Proof. intros H1 H2. by rewrite paths_Cat, H1, bind_cons, H2. Qed.

(** A repetition of a class takes the whole run of characters of the
    class first. *)
Lemma rep_class_head ranges w lo hi b rest :
  Str.forallb (in_class ranges) w = true →
  (lo ≤ String.length w ≤ hi)%nat →
  (∀ c t, rest = String c t → in_class ranges c = false) →
  ∃ b' l, rep (paths (Cls ranges)) lo hi (b, w +:+ rest) = (b', rest) :: l.
Proof.
  revert lo hi b. induction w as [|c w IH]; intros lo hi b Hw Hlen Hrest.
  - simpl in Hlen. replace lo with O by lia. app_step.
    destruct hi as [|hi]; [by exists b, []|]. cbn [rep pred].
    assert (paths (Cls ranges) (b, rest) = []) as ->.
    { cbn. destruct rest as [|d t]; [done|]. by rewrite (Hrest d t eq_refl). }
    by exists b, [].
  - simpl in Hw. apply andb_true_iff in Hw as [Hc Hw].
    destruct hi as [|hi]; [simpl in Hlen; lia|].
    app_step. cbn [rep].
    assert (paths (Cls ranges) (b, String c (w +:+ rest))
            = [(false, w +:+ rest)]) as ->.
    { cbn. by rewrite Hc. }
    destruct (IH (pred lo) hi false Hw) as (b' & l & Hl);
      [simpl in Hlen; lia | done |].
    rewrite bind_singleton, Hl. by eexists _, _.
Qed.

Lemma iter_class ranges n b w :
  iter (Match (Cls ranges)) n b w →
  String.length w = n ∧ Str.forallb (in_class ranges) w = true.
Proof.
  revert b w. induction n as [|n IH]; intros b w; simpl.
  { by intros ->. }
  intros (w1 & w2 & -> & (c & Hc & ->) & [<- Hw]%IH). app_step. simpl.
  by rewrite Hc, Hw.
Qed.

Lemma Match_class_rep ranges lo hi b w :
  Match (Rep lo (Some hi) (Cls ranges)) b w →
  (lo ≤ String.length w ≤ hi)%nat ∧ Str.forallb (in_class ranges) w = true.
Proof.
  intros (n & Hlo & Hhi & [<- Hw]%iter_class).
  specialize (Hhi hi eq_refl). done.
Qed.

Lemma group_shape b w :
  Match group b w →
  ∃ g, w = String "." g
       ∧ (2 ≤ String.length g ≤ 6)%nat
       ∧ Str.forallb (in_class [("a", "z"); ("A", "Z")]%char) g = true.
Proof.
  intros (w1 & w2 & -> & H1 & [Hl Hg]%Match_class_rep).
  cbn [Match] in H1. subst w1. exists w2. app_step. split; [done|]. by split.
Qed.

Lemma paths_group_dot b u :
  paths group (b, String "." u)
  = rep (paths letter_class) 2 6 (false, u).
Proof.
  rewrite paths_Cat.
  change (paths (Chr ".") (b, String "." u)) with [(false, u)].
  by rewrite bind_singleton.
Qed.

Lemma paths_group_nil b rest :
  (∀ t, rest ≠ String "." t) → paths group (b, rest) = [].
Proof.
  intros Hrest. rewrite paths_Cat.
  assert (paths (Chr ".") (b, rest) = []) as ->; [|done].
  cbn -[Ascii.eqb]. destruct rest as [|d t]; [done|].
  destruct (Ascii.eqb_spec "." d) as [<-|?]; [|done]. by destruct (Hrest t).
Qed.

(** What follows the groups begins with no letter and no dot. *)
Lemma groups_then n b w rest c t :
  iter (Match group) n b w → rest = "" ∨ rest = "/" →
  w +:+ rest = String c t →
  (n = O ∧ c = "/"%char) ∨ (n ≠ O ∧ c = "."%char).
Proof.
  destruct n as [|n]; simpl.
  - intros -> [-> | ->]; [done|]. intros [= <- _]. by left.
  - intros (w1 & w2 & -> & (g & -> & _)%group_shape & _) _.
    app_step. intros [= <- _]. by right.
Qed.

(** The repetition of groups takes every group first. *)
Lemma rep_group_head n lo hi b w rest :
  (lo ≤ n ≤ hi)%nat → iter (Match group) n b w → rest = "" ∨ rest = "/" →
  ∃ b' l, rep (paths group) lo hi (b, w +:+ rest) = (b', rest) :: l.
Proof.
  revert lo hi b w. induction n as [|n IH]; intros lo hi b w Hn Hw Hrest.
  - simpl in Hw. subst w. replace lo with O by lia. app_step.
    destruct hi as [|hi]; [by exists b, []|]. cbn [rep pred].
    rewrite paths_group_nil; [by exists b, []|].
    by destruct Hrest as [-> | ->].
  - destruct Hw as (w1 & w2 & -> & (g & -> & Hlen & Hg)%group_shape & Hw).
    destruct hi as [|hi]; [lia|].
    rewrite str_app_assoc. app_step. cbn [rep].
    rewrite paths_group_dot.
    destruct (rep_class_head [("a", "z"); ("A", "Z")]%char g 2 6 false
                (w2 +:+ rest) Hg Hlen) as (b1 & l1 & ->).
    { intros c t Hc.
      by destruct (groups_then _ _ _ _ _ _ Hw Hrest Hc) as [[_ ->]|[_ ->]]. }
    destruct (IH (pred lo) hi b1 w2) as (b' & l & Hl); [lia| |done|].
    { eapply iter_flag; [|exact Hw]. intros ? ? ?. by apply Match_flag. }
    rewrite bind_cons, Hl. by eexists _, _.
Qed.

(** Host, groups and maybe a slash: the first way to match takes them
    all. *)
Lemma host_tail_head b b0 he n wf t :
  Str.forallb
    (in_class [("-", "-"); ("a", "z"); ("A", "Z"); ("0", "9")]%char) he = true →
  (1 ≤ String.length he ≤ 63)%nat →
  (1 ≤ n)%nat → iter (Match group) n b0 wf → t = "" ∨ t = "/" →
  ∃ b' l, paths host_tail (b, he +:+ wf +:+ t) = (b', "") :: l.
Proof.
  intros Hhe Hlen Hn Hwf Ht.
  destruct (rep_class_head _ he 1 63 b (wf +:+ t) Hhe Hlen) as (b1 & l1 & H1).
  { intros c u Hc.
    destruct (groups_then _ _ _ _ _ _ Hwf Ht Hc) as [[-> _]|[_ ->]]; [lia|done]. }
  destruct (rep_group_head n 1 (String.length (wf +:+ t)) b1 wf t)
    as (b2 & l2 & H2); [| |done|].
  { split; [done|]. rewrite str_app_length.
    apply (consumes_iter (Match group)) in Hwf; [lia|].
    apply consumes_sound. done. }
  { eapply iter_flag; [|exact Hwf]. intros ? ? ?. by apply Match_flag. }
  assert (∃ b3 l3, paths (Opt (Chr "/")) (b2, t) = (b3, "") :: l3)
    as (b3 & l3 & H3).
  { rewrite paths_Opt. destruct Ht as [-> | ->]; by eexists _, _. }
  erewrite paths_Cat_head; [by eexists _, _| |exact H3].
  erewrite paths_Cat_head; [done|exact H1|exact H2].
Qed.

Lemma list_bind_assoc {A B C} (f : A → list B) (g : B → list C) (l : list A) :
  (l ≫= f) ≫= g = l ≫= (λ a, f a ≫= g).
Proof.
  induction l as [|a l IH]; [done|]. by rewrite !bind_cons, bind_app, IH.
Qed.

Lemma bind_head_or {A} (f : A → list cfg) (l : list A) :
  (∀ a, a ∈ l → f a = [] ∨ ∃ b' l', f a = (b', "") :: l') →
  l ≫= f = [] ∨ ∃ b' l', l ≫= f = (b', "") :: l'.
Proof.
  induction l as [|a l IH]; intros Hl; [by left|]. rewrite bind_cons.
  destruct (Hl a) as [-> | (b' & l' & ->)]; [left| |].
  - apply IH. intros a' Ha'. apply Hl. by right.
  - right. by eexists _, _.
Qed.

Lemma scheme_paths b sch u :
  sch = "http" ∨ sch = "https" →
  paths scheme (b, sch +:+ "://" +:+ u) = [(false, u)].
Proof. by intros [-> | ->]. Qed.

Lemma paths_domain b sch u :
  sch = "http" ∨ sch = "https" →
  paths DOMAIN_PATTERN (b, sch +:+ "://" +:+ u)
  = (paths www (false, u) ≫= paths host_tail) ++ paths host_tail (false, u).
Proof.
  intros Hsch.
  change (paths DOMAIN_PATTERN (b, sch +:+ "://" +:+ u))
    with ((((paths scheme (b, sch +:+ "://" +:+ u) ≫= paths (Opt www))
              ≫= paths (Rep 1 (Some 63%nat) host_class))
             ≫= paths (Plus group))
            ≫= paths (Opt (Chr "/"))).
  rewrite scheme_paths by done.
  rewrite bind_singleton, paths_Opt, !bind_app, !bind_singleton.
  f_equal.
  rewrite (list_bind_assoc (paths (Rep 1 (Some 63%nat) host_class))
             (paths (Plus group))).
  by rewrite list_bind_assoc.
Qed.

Lemma www_host he u v :
  Str.forallb
    (in_class [("-", "-"); ("a", "z"); ("A", "Z"); ("0", "9")]%char) he = true →
  he +:+ String "." u = "www." +:+ v → he = "www" ∧ u = v.
Proof.
  intros Hhe Heq.
  destruct he as [|c1 [|c2 [|c3 [|c4 he]]]];
    cbn in Heq; injection Heq as Heq; by subst.
Qed.

Lemma letter_host c :
  in_class [("a", "z"); ("A", "Z")]%char c = true →
  in_class [("-", "-"); ("a", "z"); ("A", "Z"); ("0", "9")]%char c = true.
Proof. by destruct c as [[] [] [] [] [] [] [] []]. Qed.

Lemma letter_no_dot c :
  in_class [("a", "z"); ("A", "Z")]%char c = true →
  negb (Ascii.eqb c ".") = true.
Proof. by destruct c as [[] [] [] [] [] [] [] []]. Qed.

(** A match of host, groups and slash has a dot. *)
Lemma host_tail_dot b w :
  Match host_tail b w → Str.forallb (λ c, negb (Ascii.eqb c ".")) w = false.
Proof.
  intros (w1 & wg & -> & (we & wf & -> & _ & (n & Hn & _ & Hi)) & _).
  destruct n as [|n]; [lia|].
  destruct Hi as (f1 & f2 & -> & (g & -> & _)%group_shape & _).
  rewrite !forallb_app. cbn. by rewrite andb_false_r.
Qed.

(** The first way to match a text that the pattern matches as a whole
    takes all of it. *)
Lemma domain_paths_head s :
  Match DOMAIN_PATTERN true s →
  ∃ b' l, paths DOMAIN_PATTERN (true, s) = (b', "") :: l.
Proof.
  intros Hm. unfold DOMAIN_PATTERN in Hm.
  destruct Hm as (w6 & wg & -> & Hm & Hg).
  destruct Hm as (w5 & wf & -> & Hm & Hf).
  destruct Hm as (w4 & we & -> & Hm & He).
  destruct Hm as (w3 & wd & -> & Hm & Hd).
  destruct Hm as (w2 & wc & -> & Hm & Hc).
  destruct Hm as (wa & wb & -> & Ha & Hb).
  apply Match_Lit in Ha as ->. apply Match_Lit in Hc as ->.
  apply Match_class_rep in He as [Hlen He].
  destruct Hf as (n & Hn & _ & Hf).
  assert (wg = "" ∨ wg = "/") as Hwg
    by (apply Match_Opt in Hg as [-> | ->]; auto).
  assert ("http" +:+ wb = "http" ∨ "http" +:+ wb = "https") as Hsch
    by (apply Match_Opt in Hb as [-> | ->]; auto).
  clear Hg Hb.
  rewrite !str_app_assoc, <- (str_app_assoc "http" wb).
  rewrite paths_domain by done.
  destruct (host_tail_head false _ we n wf wg He Hlen Hn Hf Hwg)
    as (b2 & l2 & H2).
  apply Match_Opt in Hd as [-> | Hd].
  - (* no [www.] in the parse *)
    app_step. rewrite H2.
    destruct (bind_head_or (paths host_tail) (paths www (false, we +:+ wf +:+ wg)))
      as [-> | (b1 & l1 & ->)]; [|by eexists _, _|by eexists _, _].
    intros [b1 v] (w & Hv & Hw & _)%paths_spec; [|done].
    destruct Hw as (w1 & w2 & -> & ->%Match_Lit & Hw2).
    cbn [Match] in Hw2. subst w2.
    destruct n as [|n]; [lia|].
    destruct Hf as (f1 & f2 & -> & (g & -> & Hg & Hgl)%group_shape & Hf).
    rewrite !str_app_assoc in Hv. app_step_in Hv.
    apply www_host in Hv as [-> <-]; [|done].
    destruct n as [|n].
    + left. simpl in Hf. subst f2. app_step.
      destruct (paths host_tail (b1, g +:+ wg)) as [|[b3 rest] l3] eqn:Hp;
        [done|exfalso].
      assert ((b3, rest) ∈ paths host_tail (b1, g +:+ wg)) as Hin
        by (rewrite Hp; left).
      apply paths_spec in Hin as (w & Hw & Hdot%host_tail_dot & _); [|done].
      assert (Str.forallb (λ c, negb (Ascii.eqb c ".")) (g +:+ wg) = true)
        as Hno.
      { rewrite forallb_app, (forallb_impl _ _ _ letter_no_dot Hgl).
        by destruct Hwg as [-> | ->]. }
      rewrite Hw, forallb_app, Hdot in Hno. done.
    + right.
      eapply (host_tail_head b1 _ g (S n) f2 wg); [|lia|lia|exact Hf|done].
      eapply forallb_impl; [|exact Hgl]. apply letter_host.
  - (* [www.] in the parse *)
    destruct Hd as (w1 & w2 & -> & ->%Match_Lit & Hw2).
    cbn [Match] in Hw2. subst w2.
    change (paths www (false, ("www" +:+ ".") +:+ we +:+ wf +:+ wg))
      with [(false, we +:+ wf +:+ wg)].
    rewrite bind_singleton, H2. by eexists _, _.
Qed.

Lemma findall_skip_all r s :
  match_at r (false, "") = None →
  findall_from r false (String.length s) s = [].
Proof.
  intros Hr. induction s as [|c s IH]; [|done]. cbn. by rewrite Hr.
Qed.

(** X2. An input that the pattern matches as a whole is the only match
    that [findall] finds, and the constructor stores it without its final
    slash, if it has one. *)
Theorem init_of_whole_match s md rl :
  Match DOMAIN_PATTERN true s →
  findall DOMAIN_PATTERN s = [s]
  ∧ Mapper_init s md rl = Ok (fresh (Str.strip "/" s) md rl)
  ∧ (s = Str.strip "/" s ∨ s = Str.strip "/" s +:+ "/").
Proof.
  intros Hm. destruct (domain_paths_head s Hm) as (b' & l & Hp).
  assert (findall DOMAIN_PATTERN s = [s]) as Hf.
  { unfold findall. destruct s as [|c s].
    { by apply (consumes_sound DOMAIN_PATTERN eq_refl) in Hm. }
    cbn [findall_from]. unfold match_at. rewrite Hp.
    cbn [snd String.length pred]. rewrite Nat.sub_0_r.
    change (S (String.length s)) with (String.length (String c s)).
    rewrite take_all. f_equal. by apply findall_skip_all. }
  split; [done|]. split.
  { unfold Mapper_init. by rewrite Hf. }
  apply domain_shape in Hm as (sch & h & t & -> & Hsch & Hh & Hne & Ht).
  rewrite strip_domain by done.
  destruct Ht as [-> | ->]; [left|right].
  - by rewrite !str_app_nil_r.
  - by rewrite !str_app_assoc.
Qed.

End WholeMatch.

(** ** The first match is the longest *)

Section LongestMatch.
Implicit Types (r : regex) (b : bool) (s w g u v rest : string) (x y z : cfg).
Implicit Types (l : list cfg) (p : ascii → bool).

Local Abbreviation host_class :=
  (Cls [("-", "-"); ("a", "z"); ("A", "Z"); ("0", "9")]%char).
Local Abbreviation letter_class := (Cls [("a", "z"); ("A", "Z")]%char).
Local Abbreviation group := (Chr "." ⋅ Rep 2 (Some 6%nat) letter_class)%re.
Local Abbreviation www := (Lit "www" ⋅ Chr ".")%re.
Local Abbreviation slash_opt := (Opt (Chr "/")).
Local Abbreviation host_tail :=
  (Rep 1 (Some 63%nat) host_class ⋅ Plus group ⋅ Opt (Chr "/"))%re.

(** The head of the list leaves no more of the subject than the ways
    after it. *)
Local Abbreviation shortest_first l :=
  (∀ y l', l = y :: l' →
           ∀ z, z ∈ l' → (String.length y.2 ≤ String.length z.2)%nat).

(** Groups and the slash, [lo] to [hi] groups. *)
Local Abbreviation tail_paths lo hi x :=
  (rep (paths group) lo hi x ≫= paths slash_opt).

Lemma paths_length r x y :
  well_formed r = true → y ∈ paths r x →
  (String.length y.2 ≤ String.length x.2)%nat.
Proof.
  destruct x as [b s], y as [b' rest].
  intros Hwf (w & -> & _)%paths_spec; [|done].
  simpl. rewrite str_app_length. lia.
Qed.

Lemma bind_nil_on {A B} (f : A → list B) (l : list A) :
  (∀ a, a ∈ l → f a = []) → l ≫= f = [].
Proof.
  induction l as [|a l IH]; intros Hl; [done|].
  rewrite bind_cons, Hl, IH; [done| |by left]. intros a' Ha'. apply Hl. by right.
Qed.

Lemma bind_id_on {A} (f : A → list A) (l : list A) :
  (∀ a, a ∈ l → f a = [a]) → l ≫= f = l.
Proof.
  induction l as [|a l IH]; intros Hl; [done|].
  rewrite bind_cons, Hl, IH; [done| |by left]. intros a' Ha'. apply Hl. by right.
Qed.

(** *** Runs of characters *)

Lemma run_unique p a a' c c' t t' :
  Str.forallb p a = true → Str.forallb p a' = true →
  p c = false → p c' = false →
  a +:+ String c t = a' +:+ String c' t' → a = a' ∧ c = c' ∧ t = t'.
Proof.
  intros Ha Ha' Hc Hc'. revert a' Ha'.
  induction a as [|d a IH]; intros [|d' a'] Ha'; app_step; intros Heq.
  - by injection Heq as -> ->.
  - injection Heq as -> _. simpl in Ha'. by rewrite Hc in Ha'.
  - injection Heq as -> _. simpl in Ha. by rewrite Hc' in Ha.
  - injection Heq as -> Heq. simpl in Ha, Ha'.
    apply andb_true_iff in Ha as [_ Ha]. apply andb_true_iff in Ha' as [_ Ha'].
    by destruct (IH Ha a' Ha' Heq) as (-> & -> & ->).
Qed.

Lemma run_le p a a' c t v :
  Str.forallb p a = true → p c = false →
  a +:+ v = a' +:+ String c t →
  (String.length a ≤ String.length a')%nat.
Proof.
  intros Ha Hc. revert a'.
  induction a as [|d a IH]; intros [|d' a']; app_step; intros Heq;
    simpl; [lia..| |].
  - injection Heq as -> _. simpl in Ha. by rewrite Hc in Ha.
  - injection Heq as _ Heq. simpl in Ha.
    apply andb_true_iff in Ha as [_ Ha]. specialize (IH Ha a' Heq). lia.
Qed.

Lemma iter_class_intro ranges b w :
  Str.forallb (in_class ranges) w = true →
  iter (Match (Cls ranges)) (String.length w) b w.
Proof.
  revert b. induction w as [|c w IH]; intros b; simpl; [done|].
  intros [Hc Hw]%andb_true_iff.
  exists (String c ""), w. split; [done|]. split; [by exists c|]. by apply IH.
Qed.

(** *** A repetition of a class *)

Lemma rep_class_sorted ranges hi lo x y l :
  rep (paths (Cls ranges)) lo hi x = y :: l →
  ∀ z, z ∈ l →
       (String.length y.2 ≤ String.length z.2)%nat
       ∧ ∃ c t, z.2 = String c t ∧ in_class ranges c = true.
Proof.
  revert lo x y l. induction hi as [|hi IH]; intros lo x y l.
  { simpl. destruct lo; [|done]. intros [= <- <-] z Hz.
    by apply elem_of_nil in Hz. }
  cbn [rep]. destruct x as [b [|c u]].
  { cbn. destruct lo; [|done]. intros [= <- <-] z Hz.
    by apply elem_of_nil in Hz. }
  assert (paths (Cls ranges) (b, String c u)
          = if in_class ranges c then [(false, u)] else []) as -> by done.
  destruct (in_class ranges c) eqn:Hc.
  2:{ simpl. destruct lo; [|done]. intros [= <- <-] z Hz.
      by apply elem_of_nil in Hz. }
  rewrite bind_singleton.
  destruct (rep (paths (Cls ranges)) (pred lo) hi (false, u)) as [|y0 l0] eqn:Hr.
  { simpl. destruct lo; [|done]. intros [= <- <-] z Hz.
    by apply elem_of_nil in Hz. }
  intros [= <- <-] z [Hz|Hz]%elem_of_app.
  - by eapply IH.
  - destruct lo; [|by apply elem_of_nil in Hz].
    apply list_elem_of_singleton in Hz as ->. split; [|by exists c, u].
    assert (y0 ∈ paths (Rep (pred 0) (Some hi) (Cls ranges)) (false, u)) as Hy
      by (change (y0 ∈ rep (paths (Cls ranges)) (pred 0) hi (false, u));
          rewrite Hr; left).
    apply paths_length in Hy; [|done]. simpl in *. lia.
Qed.

(** *** Groups and the slash *)

Lemma slash_opt_paths x :
  paths slash_opt x = [x]
  ∨ ∃ b t, x = (b, String "/" t) ∧ paths slash_opt x = [(false, t); x].
Proof.
  rewrite paths_Opt. destruct x as [b [|c t]]; [by left|].
  cbn -[Ascii.eqb]. destruct (Ascii.eqb_spec "/" c) as [<-|?]; [|by left].
  right. by exists b, t.
Qed.

Lemma slash_opt_sorted lo x :
  shortest_first (match lo with O => paths slash_opt x | S _ => [] end).
Proof.
  intros y l'. destruct lo; [|done].
  destruct (slash_opt_paths x) as [-> | (b & t & -> & ->)].
  - intros [= <- <-] z Hz. by apply elem_of_nil in Hz.
  - intros [= <- <-] z ->%list_elem_of_singleton. simpl. lia.
Qed.

Lemma group_paths_cases b s :
  paths group (b, s) = []
  ∨ ∃ u, s = String "." u
         ∧ paths group (b, s) = rep (paths letter_class) 2 6 (false, u).
Proof.
  destruct s as [|c u]; [by left|].
  destruct (Ascii.eqb_spec "." c) as [<-|Hc].
  - right. exists u. split; [done|]. apply paths_group_dot.
  - left. apply paths_group_nil. by intros t [= ->].
Qed.

Lemma tail_paths_O lo x :
  tail_paths lo 0 x = match lo with O => paths slash_opt x | S _ => [] end.
Proof. destruct lo; cbn [rep]; [by rewrite bind_singleton | done]. Qed.

Lemma tail_paths_S lo hi x :
  tail_paths lo (S hi) x
  = (paths group x ≫= (λ z, tail_paths (pred lo) hi z))
    ++ match lo with O => paths slash_opt x | S _ => [] end.
Proof.
  cbn [rep]. rewrite bind_app, list_bind_assoc.
  destruct lo; [by rewrite bind_singleton | done].
Qed.

Lemma tail_paths_no_group lo hi x :
  paths group x = [] →
  tail_paths lo hi x = match lo with O => paths slash_opt x | S _ => [] end.
Proof.
  intros Hg. destruct hi; [apply tail_paths_O|]. by rewrite tail_paths_S, Hg.
Qed.

Lemma tail_paths_nonempty hi x : tail_paths 0 hi x ≠ [].
Proof.
  assert (x ∈ tail_paths 0 hi x) as Hin.
  { apply list_elem_of_bind. exists x. split.
    - rewrite paths_Opt. apply elem_of_app. right. left.
    - destruct hi; cbn [rep]; [left|]. apply elem_of_app. right. left. }
  intros Heq. rewrite Heq in Hin. by apply elem_of_nil in Hin.
Qed.

Lemma tail_paths_length lo hi x y :
  y ∈ tail_paths lo hi x → (String.length y.2 ≤ String.length x.2)%nat.
Proof.
  intros Hy. by apply (paths_length (Rep lo (Some hi) group ⋅ slash_opt) x y).
Qed.

Lemma tail_paths_letter hi x c t :
  x.2 = String c t → in_class [("a", "z"); ("A", "Z")]%char c = true →
  tail_paths 0 hi x = [x].
Proof.
  destruct x as [b s]. simpl. intros -> Hc.
  rewrite tail_paths_no_group.
  - destruct (slash_opt_paths (b, String c t)) as [-> | (b' & t' & [= _ -> _] & _)];
      done.
  - apply paths_group_nil. intros t' [= -> _]. done.
Qed.

(** With groups and slash, the first way takes the most. *)
Lemma tail_paths_sorted hi lo x :
  (lo ≤ 1)%nat → shortest_first (tail_paths lo hi x).
Proof.
  revert lo x. induction hi as [|hi IH]; intros lo x Hlo.
  { rewrite tail_paths_O. apply slash_opt_sorted. }
  destruct x as [b s].
  destruct (group_paths_cases b s) as [Hg | (u & -> & Hg)].
  { rewrite tail_paths_no_group by done. apply slash_opt_sorted. }
  rewrite tail_paths_S, Hg. replace (pred lo) with O by lia.
  destruct (rep (paths letter_class) 2 6 (false, u)) as [|z0 Z] eqn:HZ.
  { apply slash_opt_sorted. }
  pose proof (rep_class_sorted _ _ _ _ _ _ HZ) as Hsorted.
  assert (String.length z0.2 ≤ String.length u)%nat as Hz0.
  { apply (paths_length (Rep 2 (Some 6%nat) letter_class) (false, u) z0);
      [done|].
    change (z0 ∈ rep (paths letter_class) 2 6 (false, u)). rewrite HZ. left. }
  rewrite bind_cons.
  rewrite (bind_id_on _ Z).
  2:{ intros z (_ & c & t & Hz & Hc)%Hsorted. by eapply tail_paths_letter. }
  destruct (tail_paths 0 hi z0) as [|h l0] eqn:Hh.
  { by apply tail_paths_nonempty in Hh. }
  assert (String.length h.2 ≤ String.length z0.2)%nat as Hhz.
  { apply (tail_paths_length 0 hi). rewrite Hh. left. }
  intros y l' [= <- <-] z [[Hz|Hz]%elem_of_app|Hz]%elem_of_app.
  - eapply (IH O z0); [lia|exact Hh|exact Hz].
  - apply Hsorted in Hz as [Hz _]. lia.
  - destruct lo; [|by apply elem_of_nil in Hz].
    destruct (slash_opt_paths (b, String "." u))
      as [Hp | (b' & t' & [= _ ?] & _)].
    apply list_elem_of_singleton in Hz as ->. simpl. lia.
Qed.

(** *** Host, groups and slash *)

Lemma host_tail_paths x :
  paths host_tail x
  = rep (paths host_class) 1 63 x ≫= (λ y, tail_paths 1 (String.length y.2) y).
Proof.
  change (paths host_tail x)
    with ((rep (paths host_class) 1 63 x ≫= paths (Plus group))
            ≫= paths slash_opt).
  by rewrite list_bind_assoc.
Qed.

Lemma host_tail_sorted x : shortest_first (paths host_tail x).
Proof.
  rewrite host_tail_paths.
  destruct (rep (paths host_class) 1 63 x) as [|h0 H] eqn:HH; [done|].
  rewrite bind_cons, (bind_nil_on _ H), app_nil_r.
  { by apply tail_paths_sorted. }
  intros [bz sz] (_ & c & t & Hz & Hc)%(rep_class_sorted _ _ _ _ _ _ HH).
  simpl in Hz. subst sz. apply tail_paths_no_group.
  apply paths_group_nil. intros t' [= -> _]. done.
Qed.

(** *** The whole pattern *)

Lemma chr_paths_cases c b s :
  paths (Chr c) (b, s) = []
  ∨ ∃ t, s = String c t ∧ paths (Chr c) (b, s) = [(false, t)].
Proof.
  destruct s as [|d t]; [by left|]. cbn -[Ascii.eqb].
  destruct (Ascii.eqb_spec c d) as [<-|?]; [right; by exists t | by left].
Qed.

Lemma www_paths_cases b u :
  paths www (b, u) = []
  ∨ ∃ v, u = "www." +:+ v ∧ paths www (b, u) = [(false, v)].
Proof.
  rewrite paths_Cat.
  change (paths (Lit "www") (b, u))
    with (paths (Chr "w") (b, u)
            ≫= (λ y, paths (Chr "w") y ≫= (λ y, paths (Chr "w") y ≫= paths Eps))).
  destruct (chr_paths_cases "w" b u) as [-> | (u1 & -> & ->)]; [by left|].
  rewrite bind_singleton.
  destruct (chr_paths_cases "w" false u1) as [-> | (u2 & -> & ->)]; [by left|].
  rewrite bind_singleton.
  destruct (chr_paths_cases "w" false u2) as [-> | (u3 & -> & ->)]; [by left|].
  rewrite bind_singleton.
  change (paths Eps (false, u3)) with [(false, u3)]. rewrite bind_singleton.
  destruct (chr_paths_cases "." false u3) as [-> | (v & -> & ->)]; [by left|].
  right. by exists v.
Qed.

(** When the way through [www.] matches, it leaves no more than the way
    that takes [www] as the host. *)
Lemma www_taken_first v h1 l1 z :
  paths host_tail (false, v) = h1 :: l1 →
  z ∈ paths host_tail (false, "www." +:+ v) →
  (String.length h1.2 ≤ String.length z.2)%nat.
Proof.
  intros Hv Hz. destruct z as [bz rz].
  apply paths_spec in Hz as (uu & Hu & Hm & _); [|done]. simpl.
  destruct Hm as (w1 & wg & -> & (we & wf & -> & He & (n & Hn & _ & Hi)) & Hg).
  apply Match_class_rep in He as [Hlen He].
  destruct n as [|n]; [lia|].
  destruct Hi as (f1 & f2 & -> & (g & -> & Hgl & Hgc)%group_shape & Hf2).
  rewrite !str_app_assoc in Hu. app_step_in Hu.
  symmetry in Hu. apply www_host in Hu as [-> <-]; [|done].
  assert (Str.forallb
            (in_class [("-", "-"); ("a", "z"); ("A", "Z"); ("0", "9")]%char) g
          = true) as Hgh
    by (eapply forallb_impl; [apply letter_host | exact Hgc]).
  destruct n as [|n].
  - (* one group after [www]: the other way does not get as far *)
    simpl in Hf2. subst f2. app_step_in Hv.
    assert (h1 ∈ paths host_tail (false, g +:+ wg +:+ rz)) as Hh
      by (rewrite Hv; left).
    destruct h1 as [bh rh]. apply paths_spec in Hh as (u' & Hu' & Hm' & _);
      [|done]. simpl.
    destruct Hm'
      as (w1' & wg' & -> & (he & wf' & -> & He' & (n' & Hn' & _ & Hi')) & _).
    apply Match_class_rep in He' as [_ He'].
    destruct n' as [|n']; [lia|].
    destruct Hi' as (f1' & f2' & -> & (g' & -> & _)%group_shape & _).
    rewrite !str_app_assoc in Hu'. app_step_in Hu'.
    apply Match_Opt in Hg as [-> | Hg].
    + app_step_in Hu'. pose proof (run_le _ g he "." _ rz Hgh eq_refl Hu') as Hle.
      apply (f_equal String.length) in Hu'.
      rewrite !str_app_length in Hu'. simpl in Hu'.
      rewrite !str_app_length in Hu'. lia.
    + cbn [Match] in Hg. subst wg. app_step_in Hu'.
      by apply run_unique
        with (p := in_class [("-", "-"); ("a", "z"); ("A", "Z"); ("0", "9")]%char)
        in Hu' as (_ & [=] & _).
  - (* more groups: the way through [www.] ends at the same place *)
    assert ((false && Str.is_empty ((g +:+ f2) +:+ wg), rz)
            ∈ paths host_tail (false, g +:+ f2 +:+ wg +:+ rz)) as Hin.
    { apply paths_spec; [done|]. exists ((g +:+ f2) +:+ wg).
      split; [by rewrite !str_app_assoc|]. split; [|done].
      exists (g +:+ f2), wg. split; [done|]. split.
      - exists g, f2. split; [done|]. split.
        + exists (String.length g). split; [lia|]. split.
          * intros ? [= <-]. lia.
          * by apply iter_class_intro.
        + exists (S n). split; [lia|]. split; [done|].
          eapply iter_flag; [|exact Hf2]. intros ? ? ?. by apply Match_flag.
      - eapply Match_flag; [done|exact Hg]. }
    rewrite Hv in Hin. apply elem_of_cons in Hin as [<-|Hin]; [done|].
    by apply (host_tail_sorted _ _ _ Hv) in Hin.
Qed.

(** The first way to match the domain pattern is a longest one. *)
Lemma domain_paths_sorted b s : shortest_first (paths DOMAIN_PATTERN (b, s)).
Proof.
  intros y l' Hp.
  assert (∃ sch u, (sch = "http" ∨ sch = "https") ∧ s = sch +:+ "://" +:+ u)
    as (sch & u & Hsch & ->).
  { assert (y ∈ paths DOMAIN_PATTERN (b, s)) as Hin by (rewrite Hp; left).
    destruct y as [by' ry]. apply paths_spec in Hin as (w & -> & Hm & _); [|done].
    apply (Match_flag _ _ true) in Hm; [|done].
    apply domain_shape in Hm as (sch & h & t & -> & Hsch & _).
    exists sch, (h +:+ t +:+ ry). split; [done|]. by rewrite !str_app_assoc. }
  rewrite paths_domain in Hp by done.
  destruct (www_paths_cases false u) as [Hw | (v & -> & Hw)]; rewrite Hw in Hp.
  { by apply (host_tail_sorted (false, u)). }
  rewrite bind_singleton in Hp.
  destruct (paths host_tail (false, v)) as [|h1 l1] eqn:Hv.
  { by apply (host_tail_sorted (false, "www." +:+ v)). }
  injection Hp as -> <-. intros z [Hz|Hz]%elem_of_app.
  - by apply (host_tail_sorted _ _ _ Hv).
  - by eapply www_taken_first.
Qed.

(** *** [findall] and the constructor *)

Lemma match_at_paths r x m y :
  match_at r x = Some (m, y) → ∃ l, paths r x = y :: l.
Proof.
  unfold match_at. destruct (paths r x) as [|y' l]; [done|].
  intros [= _ <-]. by exists l.
Qed.

(** The first element of [findall] is the first way to match at the
    leftmost position where there is one. *)
Lemma findall_from_head r b s m ms :
  well_formed r = true →
  findall_from r b 0 s = m :: ms →
  ∃ pre y l,
    s = pre +:+ m +:+ y.2
    ∧ paths r (b && Str.is_empty pre, m +:+ y.2) = y :: l
    ∧ Match r (b && Str.is_empty pre) m
    ∧ ∀ pre' w post', s = pre' +:+ w +:+ post' →
                      Match r (b && Str.is_empty pre') w →
                      (String.length pre ≤ String.length pre')%nat.
Proof.
  intros Hwf. revert b. induction s as [|c s IH]; intros b; simpl.
  - destruct (match_at r (b, "")) as [[m' y]|] eqn:Hm; [|done].
    intros [= -> <-]. destruct (match_at_paths _ _ _ _ Hm) as [l Hl].
    apply match_at_Some in Hm as [Hs Hm]; [|done].
    exists "", y, l. rewrite andb_true_r. app_step. rewrite <- Hs.
    split_and!; [done..|]. intros; simpl; lia.
  - destruct (match_at r (b, String c s)) as [[m' y]|] eqn:Hm.
    + intros [= -> _]. destruct (match_at_paths _ _ _ _ Hm) as [l Hl].
      apply match_at_Some in Hm as [Hs Hm]; [|done].
      exists "", y, l. rewrite andb_true_r. app_step. rewrite <- Hs.
      split_and!; [done..|]. intros; simpl; lia.
    + intros (pre & y & l & -> & Hp & Hmm & Hleft)%IH.
      exists (String c pre), y, l. rewrite andb_false_r.
      rewrite andb_false_l in Hp, Hmm. split_and!; [done..|].
      intros [|d pre'] w post' Hs Hw.
      * rewrite andb_true_r in Hw.
        eapply match_at_None in Hm; [by destruct Hm|done|exact Hs].
      * injection Hs as _ Hs. rewrite andb_false_r in Hw.
        specialize (Hleft pre' w post' Hs).
        rewrite andb_false_l in Hleft. simpl. apply le_n_S. auto.
Qed.

Lemma no_final_slash sch h d :
  Str.forallb host_char h = true → h ≠ "" →
  sch +:+ "://" +:+ h ≠ d +:+ "/".
Proof.
  intros Hh Hne Heq.
  assert (Str.rstrip "/" (sch +:+ "://" +:+ h) = sch +:+ "://" +:+ h) as Hr.
  { assert (Str.rstrip "/" h = h) as Hrh.
    { apply rstrip_id. eapply forallb_impl; [|exact Hh].
      intros c Hc%host_char_plain.
      repeat (apply andb_true_iff in Hc as [Hc ?]); done. }
    rewrite <- str_app_assoc. rewrite rstrip_app; by rewrite Hrh. }
  rewrite Heq, rstrip_app_nil in Hr by done.
  pose proof (rstrip_length "/" d) as Hlen. rewrite Hr in Hlen.
  rewrite str_app_length in Hlen. simpl in Hlen. lia.
Qed.

(** C9. For every string that has a substring matching the domain pattern,
    construction succeeds, with empty sets and the given [max_depth] and
    [rate_limit]. The stored domain is the first element of [findall]
    stripped of ['/']: the match at the leftmost position where a match
    begins and the longest one there (the repetitions are greedy), kept as
    it is or, when it ends in a slash, without that slash. The stored
    domain has no slash at either end, and it differs from the input
    whenever the input does not match as a whole. *)
Theorem init_stores_first_match s md rl :
  (∃ pre w post, s = pre +:+ w +:+ post ∧ Match DOMAIN_PATTERN true w) →
  ∃ pre m post,
    s = pre +:+ m +:+ post
    ∧ Match DOMAIN_PATTERN true m
    ∧ (∀ pre' w post', s = pre' +:+ w +:+ post' →
                       Match DOMAIN_PATTERN true w →
                       (String.length pre ≤ String.length pre')%nat)
    ∧ (∀ w post', m +:+ post = w +:+ post' →
                  Match DOMAIN_PATTERN true w →
                  (String.length w ≤ String.length m)%nat)
    ∧ (∃ ms, findall DOMAIN_PATTERN s = m :: ms)
    ∧ ∃ d, Mapper_init s md rl = Ok (fresh d md rl)
           ∧ d = Str.strip "/" m
           ∧ (m = d ∨ m = d +:+ "/")
           ∧ (∀ d', d ≠ d' +:+ "/") ∧ (∀ d', d ≠ "/" +:+ d')
           ∧ (¬ Match DOMAIN_PATTERN true s → d ≠ s).
Proof.
  intros Hex.
  destruct (findall DOMAIN_PATTERN s) as [|m ms] eqn:Hf.
  { by apply findall_domain_nil in Hf. }
  pose proof Hf as (pre & y & l & -> & Hp & Hm & Hleft)%findall_from_head;
    [|done].
  apply (Match_flag _ _ true) in Hm; [|done].
  exists pre, m, y.2. split_and!; [done..| | | |].
  - intros pre' w post' Hs Hw. apply (Hleft pre' w post' Hs).
    by eapply Match_flag, Hw.
  - intros w post' Heq Hw.
    assert ((true && Str.is_empty pre && Str.is_empty w, post')
            ∈ paths DOMAIN_PATTERN (true && Str.is_empty pre, m +:+ y.2)) as Hin.
    { apply paths_spec; [done|]. exists w. split_and!; [done| |done].
      by eapply Match_flag, Hw. }
    assert (String.length y.2 ≤ String.length post')%nat as Hle.
    { rewrite Hp in Hin. apply elem_of_cons in Hin as [<-|Hin]; [done|].
      by apply (domain_paths_sorted _ _ _ _ Hp) in Hin. }
    apply (f_equal String.length) in Heq. rewrite !str_app_length in Heq. lia.
  - eauto.
  - exists (Str.strip "/" m). split.
    { unfold Mapper_init. by rewrite Hf. }
    pose proof Hm as (sch & h & t & Heq & Hsch & Hh & Hne & Ht)%domain_shape.
    assert (Str.strip "/" m = sch +:+ "://" +:+ h) as Hd
      by (rewrite Heq; by apply strip_domain).
    split_and!; [done|..].
    + rewrite Hd, Heq. destruct Ht as [-> | ->]; [left|right].
      * by rewrite !str_app_nil_r.
      * by rewrite !str_app_assoc.
    + intros d'. rewrite Hd. by apply no_final_slash.
    + intros d'. rewrite Hd. by destruct Hsch as [-> | ->].
    + intros Hwhole Hds.
      pose proof (strip_length "/" m) as Hlen. rewrite Hds in Hlen.
      rewrite !str_app_length in Hlen.
      destruct pre; [|simpl in Hlen; lia].
      destruct y.2; [|simpl in Hlen; lia].
      apply Hwhole. by rewrite str_app_nil_r.
Qed.

End LongestMatch.

(** ** The depth bound and the waits *)

Section Depth.
Context {lib : UrlLib} {world : World}.
Implicit Types (st : state) (url link page p : string) (depth : Z) (n k : nat).

Lemma chain_domain (self self' : Mapper) k a b :
  domain self' = domain self → chain self k a b → chain self' k a b.
Proof.
  intros Hd. revert a. induction k as [|k IH]; intros a; simpl; [done|].
  intros (c & Hc & Hk). exists c. split; [|by apply IH].
  by eapply link_of_page_domain.
Qed.

Lemma crawl_at_within n url depth st p :
  p ∈ visited (crawl_at n url depth st).1 →
  p ∈ visited st.1
  ∨ ∃ k, Z.of_nat k ≤ max_depth st.1 - depth ∧ chain st.1 k url p.
Proof.
  revert url depth st p.
  induction n as [|n IH]; intros url depth st p; [by left|].
  rewrite crawl_at_S.
  destruct (depth >? max_depth st.1) eqn:Hdepth; [by left|].
  destruct (bool_decide (url ∈ visited st.1)) eqn:Hv; [by left|].
  revert p.
  apply (foldl_invariant
           (λ a, rtc step (visit url st) a
                 ∧ ∀ p, p ∈ visited a.1 →
                        p ∈ visited st.1
                        ∨ ∃ k, Z.of_nat k ≤ max_depth st.1 - depth
                               ∧ chain st.1 k url p)).
  { split; [done|]. intros p. rewrite visit_fst. simpl.
    intros [->%elem_of_singleton|Hp]%elem_of_union; [right|by left].
    exists O. split; [lia|done]. }
  intros a link [Ha Hinv] Hlink.
  assert (rtc step a (follow (crawl_at n) depth a link)) as Hstep
    by (apply follow_steps; intros; by apply crawl_at_steps).
  split; [by etrans|].
  pose proof (steps_same_config _ _ Ha) as (Hd & Hmd & _).
  rewrite visit_fst in Hd, Hmd. simpl in Hd, Hmd.
  clear Hstep. unfold follow.
  destruct (_is_valid_url a.1 (urljoin (domain a.1) link)
            && bool_decide (urljoin (domain a.1) link ∉ visited a.1)) eqn:Hc;
    [|done].
  apply andb_true_iff in Hc as [Hok _].
  set (u0 := urljoin (domain a.1) link) in *.
  intros p Hp. simpl in Hp.
  apply IH in Hp as [Hp|(k & Hk & Hch)]; [by apply Hinv|right].
  simpl in Hk, Hch. exists (S k). split; [lia|].
  exists u0. split.
  - exists link. rewrite found_links_of in Hlink. unfold u0.
    rewrite Hd. split_and!; [done..|].
    rewrite <- Hd. by rewrite (is_valid_url_domain a.1 st.1).
  - eapply chain_domain; [|exact Hch]. done.
Qed.

(** X15. The depth bound holds: a page visited by [crawl url depth] was
    visited before, or is reached from [url] by at most [max_depth - depth]
    eligible links, each found on the page before it. *)
Theorem crawl_visits_within_depth url depth st p :
  p ∈ visited (crawl url depth st).1 →
  p ∈ visited st.1
  ∨ ∃ k, Z.of_nat k ≤ max_depth st.1 - depth ∧ chain st.1 k url p.
Proof. apply crawl_at_within. Qed.

Lemma sleeps_app tr1 tr2 : sleeps (tr1 ++ tr2) = sleeps tr1 ++ sleeps tr2.
Proof. apply omap_app. Qed.

Lemma sleeps_visit url st : sleeps (visit url st).2 = sleeps st.2.
Proof.
  rewrite visit_snd, sleeps_app.
  destruct (error_line url); simpl; by rewrite app_nil_r.
Qed.

Lemma crawl_at_waits n url depth st :
  (size (all_links (crawl_at n url depth st).1) + length (sleeps st.2)
   ≤ size (all_links st.1) + length (sleeps (crawl_at n url depth st).2))%nat.
Proof.
  revert url depth st. induction n as [|n IH]; intros url depth st; [done|].
  rewrite crawl_at_S.
  destruct (depth >? max_depth st.1); [done|].
  destruct (bool_decide (url ∈ visited st.1)); [done|].
  apply (foldl_invariant
           (λ a, (size (all_links a.1) + length (sleeps st.2)
                  ≤ size (all_links st.1) + length (sleeps a.2))%nat)).
  { by rewrite visit_fst, sleeps_visit. }
  intros a link Ha _. unfold follow.
  destruct (_is_valid_url a.1 (urljoin (domain a.1) link)
            && bool_decide (urljoin (domain a.1) link ∉ visited a.1)); [|done].
  set (u0 := urljoin (domain a.1) link).
  pose proof (IH u0 (depth + 1) (all_links_add u0 a.1, a.2)) as Hrec.
  unfold _rate_limit_wait, emit. cbn [fst snd] in *.
  rewrite sleeps_app, length_app. simpl.
  assert (size (all_links (all_links_add u0 a.1)) ≤ S (size (all_links a.1)))%nat
    as Hadd.
  { simpl. rewrite size_union_alt, size_singleton.
    assert (size (all_links a.1 ∖ {[u0]}) ≤ size (all_links a.1))%nat
      by (apply subseteq_size; set_solver).
    lia. }
  lia.
Qed.

(** X16. [crawl] waits at least once for each link that it discovers: the
    number of waits added is at least the number of URLs added to
    [all_links]. *)
Theorem crawl_waits_per_discovery url depth st :
  (size (all_links (crawl url depth st).1) + length (sleeps st.2)
   ≤ size (all_links st.1) + length (sleeps (crawl url depth st).2))%nat.
Proof. apply crawl_at_waits. Qed.

End Depth.

(** ** The theorems at concrete inputs *)

Lemma init_raises_without_match_witness :
  (¬ ∃ pre w post, "google.com" = pre +:+ w +:+ post
                   ∧ Match DOMAIN_PATTERN true w)
  ∧ Mapper_init "google.com" 2 0.5 = Raise MapperURLInvalidError
  ∧ str MapperURLInvalidError = "URL fornecida não é válida.".
Proof.
  assert (¬ ∃ pre w post, "google.com" = pre +:+ w +:+ post
                          ∧ Match DOMAIN_PATTERN true w) as Hno.
  { apply findall_domain_nil. vm_compute. reflexivity. }
  split; [exact Hno|].
  exact (init_raises_without_match "google.com" 2 0.5 Hno).
Defined.

Lemma init_stores_first_match_witness :
  ∃ pre m post d,
    "see http://google.com/path" = pre +:+ m +:+ post
    ∧ m = "http://google.com/" ∧ d = "http://google.com"
    ∧ Mapper_init "see http://google.com/path" 2 0.5 = Ok (fresh d 2 0.5)
    ∧ (m = d ∨ m = d +:+ "/")
    ∧ (∀ d', d ≠ d' +:+ "/")
    ∧ (∀ w post', m +:+ post = w +:+ post' →
                  Match DOMAIN_PATTERN true w →
                  (String.length w ≤ String.length m)%nat)
    ∧ d ≠ "see http://google.com/path".
Proof.
  destruct (init_stores_first_match "see http://google.com/path" 2 0.5)
    as (pre & m & post & Hs & _ & _ & Hlong & [ms Hf] & d
        & Hinit & _ & Hd & Hend & _ & Hne).
  { exists "see ", "http://google.com/", "path". split; [reflexivity|].
    apply re_fullmatch_spec; [reflexivity|]. vm_compute. reflexivity. }
  vm_compute in Hf. injection Hf as <- _.
  assert (d = "http://google.com") as Heq.
  { vm_compute in Hinit. by injection Hinit as <-. }
  exists pre, "http://google.com/", post, d.
  split; [exact Hs|]. split; [reflexivity|]. split; [exact Heq|].
  split; [exact Hinit|]. split; [exact Hd|]. split; [exact Hend|].
  split; [exact Hlong|]. rewrite Heq. discriminate.
Defined.

Lemma visited_vs_discovered_witness :
  0 ≤ 1
  ∧ (size (visited (map_web_site (lib := urllib) (world := world_of branching_site)
                      (fresh "http://host.com" 1 0.5, [])).2.1)
     + size (all_links (map_web_site (lib := urllib) (world := world_of branching_site)
                          (fresh "http://host.com" 1 0.5, [])).2.1
             ∖ visited (map_web_site (lib := urllib) (world := world_of branching_site)
                          (fresh "http://host.com" 1 0.5, [])).2.1)
     = size (all_links (map_web_site (lib := urllib) (world := world_of branching_site)
                          (fresh "http://host.com" 1 0.5, [])).2.1) + 1)%nat.
Proof.
  split; [lia|].
  apply (visited_vs_discovered (lib := urllib) (world := world_of branching_site)
           "http://host.com" 1 0.5 []).
  lia.
Defined.

Lemma fetch_failure_recovered_witness :
  crawl (lib := urllib) (world := world_of dead_site) "http://host.com" 0
    (fresh "http://host.com" 2 0.5, [])
  = (visited_add "http://host.com" (fresh "http://host.com" 2 0.5),
     [Log "Visitando: [blue]http://host.com[/blue]";
      Request "http://host.com";
      Print ("[red]Erro ao acessar http://host.com:[/red] "
             +:+ "404 Client Error: Not Found for url: http://host.com")]).
Proof.
  apply (fetch_failure_recovered (lib := urllib) (world := world_of dead_site)
           (fresh "http://host.com" 2 0.5, []) "http://host.com" 0
           "404 Client Error: Not Found for url: http://host.com").
  - simpl. lia.
  - simpl. apply not_elem_of_empty.
  - reflexivity.
Defined.

Lemma crawl_beyond_max_depth_witness :
  3 > 2
  ∧ crawl (lib := urllib) (world := world_of branching_site) "http://host.com" 3
      (fresh "http://host.com" 2 0.5, [])
    = (fresh "http://host.com" 2 0.5, []).
Proof.
  split; [lia|].
  apply (crawl_beyond_max_depth (lib := urllib) (world := world_of branching_site)
           (fresh "http://host.com" 2 0.5, []) "http://host.com" 3).
  simpl. lia.
Defined.

Lemma seed_never_discovered_witness :
  fetch (World := world_of self_link_site) "http://host.com"
  = inr (anchors ["//"; "/a"])
  ∧ urljoin (UrlLib := urllib) "http://host.com" "//" = "http://host.com"
  ∧ _is_valid_url (lib := urllib) (fresh "http://host.com" 2 0.5)
      "http://host.com" = true
  ∧ "http://host.com"
    ∉ (map_web_site (lib := urllib) (world := world_of self_link_site)
         (fresh "http://host.com" 2 0.5, [])).1.
Proof.
  split; [by vm_compute|]. split; [by vm_compute|]. split; [by vm_compute|].
  apply (seed_never_discovered (lib := urllib) (world := world_of self_link_site)
           (fresh "http://host.com" 2 0.5, [])).
  reflexivity.
Defined.

Lemma clean_links_of_valid_witness :
  length (_clean_links (world := world_of dead_site) ["/a"; "/a/"; "/a.html"])
  = length ["/a"; "/a/"; "/a.html"]
  ↔ NoDup ["/a"; "/a/"; "/a.html"].
Proof.
  apply (clean_links_of_valid (world := world_of dead_site)
           ["/a"; "/a/"; "/a.html"]).
  intros link Hin.
  repeat (apply elem_of_cons in Hin as [->|Hin]; [by eauto|]).
  by apply elem_of_nil in Hin.
Defined.

Lemma seed_rediscovered_by_slash_witness :
  followed "http://host.com/"
    (map_web_site (lib := urllib) (world := world_of home_link_site)
       (fresh "http://host.com" 2 0.5, [])).2
  ∧ "http://host.com/"
    ∈ (map_web_site (lib := urllib) (world := world_of home_link_site)
         (fresh "http://host.com" 2 0.5, [])).1.
Proof.
  destruct (seed_rediscovered_by_slash (world := world_of home_link_site)
              "http://host.com/" 2 0.5
              (fresh "http://host.com" 2 0.5) (anchors ["/"]))
    as (_ & _ & _ & _ & Hf & Hin).
  - vm_compute. reflexivity.
  - lia.
  - reflexivity.
  - vm_compute. left.
  - split; [exact Hf | exact Hin].
Defined.

(** ** More theorems at concrete inputs *)

Lemma init_object_witness :
  max_depth (fresh "https://www.google.com" 2 0.5) = 2
  ∧ Str.strip "/" "https://www.google.com" = "https://www.google.com".
Proof.
  destruct (init_object "https://www.google.com/" 2 0.5
              (fresh "https://www.google.com" 2 0.5))
    as (Hm & _ & _ & _ & _ & _ & Hs).
  - vm_compute. reflexivity.
  - split; [exact Hm | exact Hs].
Defined.

Lemma clean_links_keeps_slash_links_witness :
  _clean_links (world := world_of dead_site)
    ["http://google.com"; "https://google.com"; "ftp://google.com"] = [].
Proof.
  apply (clean_links_keeps_slash_links (world := world_of dead_site)
           ["http://google.com"; "https://google.com"; "ftp://google.com"]).
  intros link Hin [rest Hr].
  repeat (apply elem_of_cons in Hin as [->|Hin]; [discriminate Hr|]).
  by apply elem_of_nil in Hin.
Defined.

Lemma crawl_once_witness :
  "http://host.com"
  ∈ visited (crawl (lib := urllib) (world := world_of branching_site)
               "http://host.com" 0 (fresh "http://host.com" 1 0.5, [])).1.
Proof.
  apply (crawl_once (lib := urllib) (world := world_of branching_site)
           "http://host.com" 0 (fresh "http://host.com" 1 0.5, [])).
  simpl. lia.
Defined.

Lemma crawl_requests_each_page_once_witness :
  requested_once
    (crawl (lib := urllib) (world := world_of branching_site)
       "http://host.com" 0 (fresh "http://host.com" 1 0.5, [])).
Proof.
  apply (crawl_requests_each_page_once
           (lib := urllib) (world := world_of branching_site)).
  split; [constructor|]. intros url. simpl. split.
  - intros Hin. by apply elem_of_nil in Hin.
  - intros Hin. by apply not_elem_of_empty in Hin.
Defined.

Lemma crawl_well_logged_witness :
  well_logged (world := world_of branching_site) 0.5
    (crawl (lib := urllib) (world := world_of branching_site)
       "http://host.com" 0 (fresh "http://host.com" 1 0.5, [])).2.
Proof.
  apply (crawl_well_logged (lib := urllib) (world := world_of branching_site)
           "http://host.com" 0 (fresh "http://host.com" 1 0.5, [])).
  simpl. split; [reflexivity|]. split; [reflexivity|]. constructor.
Defined.

Lemma crawl_at_depth_bound_witness :
  requests (crawl (lib := urllib) (world := world_of branching_site)
              "http://host.com" 0 (fresh "http://host.com" 0 0.5, [])).2
  = ["http://host.com"].
Proof.
  apply (crawl_at_depth_bound (lib := urllib) (world := world_of branching_site)
           "http://host.com" (fresh "http://host.com" 0 0.5, [])).
  simpl. apply not_elem_of_empty.
Defined.

Lemma constructed_domain_eligible_under_both_schemes_witness :
  ∃ sch h,
    "http://host.com" = sch +:+ "://" +:+ h
    ∧ ∀ sch' t, sch' = "http" ∨ sch' = "https" → t = "" ∨ t = "/" →
                _is_valid_url (lib := urllib) (fresh "http://host.com" 2 0.5)
                  (sch' +:+ "://" +:+ h +:+ t) = true.
Proof.
  apply (constructed_domain_eligible_under_both_schemes "http://host.com/" 2 0.5
           (fresh "http://host.com" 2 0.5)).
  vm_compute. reflexivity.
Defined.

Lemma crawl_discovers_links_of_visited_witness :
  let st := (fresh "http://host.com" 1 0.5, []) in
  "http://host.com/a" ∈ all_links st.1
  ∨ ∃ page link,
      page ∈ visited (crawl (lib := urllib) (world := world_of branching_site)
                        "http://host.com" 0 st).1
      ∧ (page ∉ visited st.1)
      ∧ link ∈ _find_links (page_of (world := world_of branching_site) page)
      ∧ (∃ rest, link = String "/" rest)
      ∧ "http://host.com/a" = urljoin (UrlLib := urllib) (domain st.1) link
      ∧ _is_valid_url (lib := urllib) st.1 "http://host.com/a" = true.
Proof.
  apply (crawl_discovers_links_of_visited
           (lib := urllib) (world := world_of branching_site)
           "http://host.com" 0 (fresh "http://host.com" 1 0.5, [])
           "http://host.com/a").
  refine (bool_decide_unpack _ _). vm_compute. exact I.
Defined.

Lemma crawl_closed_under_links_witness :
  let st := (fresh "http://host.com" 1 0.5, []) in
  let st' := crawl (lib := urllib) (world := world_of branching_site)
               "http://host.com" 0 st in
  "http://host.com/a" ∈ all_links st'.1 ∪ visited st'.1.
Proof.
  apply (crawl_closed_under_links
           (lib := urllib) (world := world_of branching_site)
           "http://host.com" 0 (fresh "http://host.com" 1 0.5, [])
           "http://host.com" "/a").
  - refine (bool_decide_unpack _ _). vm_compute. exact I.
  - simpl. apply not_elem_of_empty.
  - refine (bool_decide_unpack _ _). vm_compute. exact I.
  - by exists "a".
  - vm_compute. reflexivity.
Defined.

Lemma map_web_site_stays_on_site_witness :
  netloc (urlparse (UrlLib := urllib) "http://host.com/a")
  = netloc (urlparse (UrlLib := urllib) "http://host.com")
  ∧ "http://host.com/a" ≠ "http://host.com".
Proof.
  destruct (map_web_site_stays_on_site
              (lib := urllib) (world := world_of branching_site)
              "http://host.com" 1 0.5 [] "http://host.com/a")
    as (Hn & _ & Hne).
  - refine (bool_decide_unpack _ _). vm_compute. exact I.
  - split; [exact Hn | exact Hne].
Defined.

Lemma map_web_site_requests_on_site_witness :
  "http://host.com/a" = "http://host.com"
  ∨ (netloc (urlparse (UrlLib := urllib) "http://host.com/a")
     = netloc (urlparse (UrlLib := urllib) "http://host.com")
     ∧ ∀ ext, ext ∈ non_content →
              ¬ ∃ pre, path (urlparse (UrlLib := urllib) "http://host.com/a")
                       = pre +:+ ext).
Proof.
  apply (map_web_site_requests_on_site
           (lib := urllib) (world := world_of branching_site)
           "http://host.com" 1 0.5 "http://host.com/a").
  refine (bool_decide_unpack _ _). vm_compute. exact I.
Defined.

Lemma init_of_whole_match_witness :
  findall DOMAIN_PATTERN "https://www.google.com/" = ["https://www.google.com/"]
  ∧ Mapper_init "https://www.google.com/" 2 0.5
    = Ok (fresh (Str.strip "/" "https://www.google.com/") 2 0.5)
  ∧ ("https://www.google.com/" = Str.strip "/" "https://www.google.com/"
     ∨ "https://www.google.com/"
       = Str.strip "/" "https://www.google.com/" +:+ "/").
Proof.
  apply (init_of_whole_match "https://www.google.com/" 2 0.5).
  apply re_fullmatch_spec; [reflexivity|]. vm_compute. reflexivity.
Defined.

Lemma crawl_visits_within_depth_witness :
  let st : state := (fresh "http://host.com" 1 0.5, []) in
  "http://host.com/a" ∈ visited st.1
  ∨ ∃ k, Z.of_nat k ≤ max_depth st.1 - 0
         ∧ chain (lib := urllib) (world := world_of branching_site)
             st.1 k "http://host.com" "http://host.com/a".
Proof.
  apply (crawl_visits_within_depth
           (lib := urllib) (world := world_of branching_site)
           "http://host.com" 0 (fresh "http://host.com" 1 0.5, [])
           "http://host.com/a").
  refine (bool_decide_unpack _ _). vm_compute. exact I.
Defined.
